(** * DeepMoon, [train_model.py]: hyperparameter selection and the custom
      metrics printed at the end of each epoch.

    The development embeds [get_param_i], [custom_image_generator] and
    [get_metrics] of [train_model.py].

    Conventions of the embedding.
    - Python integers are [Z]; Python floats are exact rationals [Q]
      (rounding is not modelled), so float division is the one fallible
      arithmetic operation: it raises [ZeroDivisionError] on a zero divisor.
      The row filter of lines 121-125, whose decisions at the border of the
      image depend on rounding, is given a second time on binary64 values,
      in [F64].
    - A numpy standard deviation is the square root of a rational variance;
      it is kept as the symbolic value [Root v].
    - A run either raises an exception or returns; everything [print] writes
      is collected, in order, in a log of lines.  A line is the format string
      together with the values substituted into it.
    - [utils.template_match_target] and [utils.processing] are not part of
      [train_model.py]; the two functions used from them ([template_match_t2c]
      and [get_id]) are taken as parameters, bundled in [Utils].
    - What [np.random.randint] returns is an input of the generator: the
      arrays drawn for a batch are given, entry by entry, in [Draws]. *)

From Stdlib Require Import String.
From Stdlib Require Import List ZArith QArith Qminmax Lia Lqa Bool.
From Stdlib Require Import Permutation Setoid Morphisms.
From Stdlib Require Import PrimFloat Uint63.
Import ListNotations.
Local Open Scope string_scope.
Local Open Scope Z_scope.
Local Open Scope Q_scope.
Local Open Scope list_scope.

(* ------------------------------------------------------------------ *)
(** ** Python runtime: exceptions, printing, indexing, float division   *)
(* ------------------------------------------------------------------ *)

Module Py.

Inductive exn : Type :=
| KeyError
| IndexError
| ZeroDivisionError
| TypeError
| ValueError.

Definition result (A : Type) : Type := (exn + A)%type.

(** What a [%d] or [%f] conversion receives. [NaN] is numpy's answer for the
    mean of nothing; [Root v] is the square root of [v]. *)
Inductive value : Type :=
| Int (z : Z)
| Float (q : Q)
| Root (v : Q)
| NaN.

Definition line : Type := (string * list value)%type.
Definition log : Type := list line.

(** Computations that print and may raise. *)
Definition M (A : Type) : Type := log -> log * result A.

Definition ret {A} (a : A) : M A := fun out => (out, inr a).
Definition raise {A} (e : exn) : M A := fun out => (out, inl e).
Definition bind {A B} (c : M A) (k : A -> M B) : M B :=
  fun out =>
    match c out with
    | (out', inl e) => (out', inl e)
    | (out', inr a) => k a out'
    end.
Definition lift {A} (r : result A) : M A := fun out => (out, r).
Definition print (fmt : string) (args : list value) : M unit :=
  fun out => (out ++ [(fmt, args)], inr tt).

(** [for a in l: s = f(a, s)] *)
Fixpoint for_each {A S} (f : A -> S -> M S) (l : list A) (s : S) : M S :=
  match l with
  | [] => ret s
  | a :: l' => bind (f a s) (for_each f l')
  end.

(** [for a in l: out.append(f(a))] *)
Fixpoint collect {A B} (f : A -> M B) (l : list A) : M (list B) :=
  match l with
  | [] => ret []
  | a :: l' => bind (f a) (fun b => bind (collect f l') (fun bs => ret (b :: bs)))
  end.

(** [l[i]] for a Python integer [i]: negative indices count from the end. *)
Definition index {A} (l : list A) (i : Z) : result A :=
  let n := Z.of_nat (length l) in
  let j := if (i <? 0)%Z then (n + i)%Z else i in
  if (j <? 0)%Z then inl IndexError
  else match nth_error l (Z.to_nat j) with
       | Some a => inr a
       | None => inl IndexError
       end.

(** [float(a) / float(b)] *)
Definition fdiv (a b : Q) : M Q :=
  if Qeq_bool b 0 then raise ZeroDivisionError else ret (a / b).

(** [a < b] and [a > b] on floats. *)
Definition Qlt_bool (a b : Q) : bool := negb (Qle_bool b a).
Definition Qgt_bool (a b : Q) : bool := Qlt_bool b a.

End Py.
Import Py.

Declare Scope py_scope.
Delimit Scope py_scope with py.
Notation "x <- c ;; k" := (bind c (fun x => k))
  (at level 100, c at next level, right associativity) : py_scope.
Notation "c ;;; k" := (bind c (fun _ => k))
  (at level 100, right associativity) : py_scope.
Local Open Scope py_scope.

(* ------------------------------------------------------------------ *)
(** ** numpy reductions                                                 *)
(* ------------------------------------------------------------------ *)

Module Np.

Definition sum (l : list Q) : Q := fold_right Qplus 0 l.

Definition avg (l : list Q) : Q := sum l / inject_Z (Z.of_nat (length l)).

(** Population variance: the average squared distance to the average. *)
Definition var (l : list Q) : Q :=
  avg (map (fun a => (a - avg l) * (a - avg l)) l).

(** [np.mean(l)] *)
Definition mean (l : list Q) : value :=
  match l with
  | [] => NaN
  | _ :: _ => Float (avg l)
  end.

(** [np.std(l)] *)
Definition std (l : list Q) : value :=
  match l with
  | [] => NaN
  | _ :: _ => Root (var l)
  end.

(** [np.max(l)]: a [ValueError] on an empty array. *)
Definition max (l : list Q) : result value :=
  match l with
  | [] => inl ValueError
  | a :: l' => inr (Float (fold_left Qmax l' a))
  end.

(** A list of rows becomes a two-dimensional array only when all rows have
    one length; the reductions then run over all its entries. *)
Definition rectangular (rows : list (list Q)) : bool :=
  match rows with
  | [] => true
  | r :: rows' => forallb (fun r' => Nat.eqb (length r') (length r)) rows'
  end.

Definition flatten (rows : list (list Q)) : result (list Q) :=
  if rectangular rows then inr (concat rows) else inl ValueError.

End Np.

(* ------------------------------------------------------------------ *)
(** ** [get_param_i]                                                    *)
(* ------------------------------------------------------------------ *)

Definition get_param_i {A} (param : list A) (i : Z) : result A :=
  if (Z.of_nat (length param) >? i)%Z then index param i else index param 0%Z.

(* ------------------------------------------------------------------ *)
(** ** Data of [get_metrics]                                            *)
(* ------------------------------------------------------------------ *)

(** A two-dimensional array of floats: an input image, a target mask or a
    predicted mask. *)
Definition array2 : Type := list (list Q).

(** One row of a table of human-counted craters; only the columns
    ['x'], ['y'] and ['Diameter (pix)'] are read. *)
Record Row : Type := mkRow { col_x : Q; col_y : Q; col_diam : Q }.

(** A row [(x, y, r)] of [csv_coords]. *)
Definition Circle : Type := (Q * Q * Q)%type.

(** An entry of [csvs]: the placeholder [[-1]] or an array of coordinates. *)
Inductive csv_entry : Type :=
| Sentinel
| Coords (c : list Circle).

(** [len(csvs[i])] *)
Definition len (e : csv_entry) : nat :=
  match e with
  | Sentinel => 1
  | Coords c => length c
  end.

(** Modelled from the spec: the tuple [template_match_t2c] returns, whose
    function is in [utils.template_match_target]. Three counts, the largest
    matched radius, the fractional errors in x, y and radius of the matched
    pairs, and the list of duplicates. *)
Record MatchResult : Type := mkMatch {
  N_match : Z;
  N_csv : Z;
  N_templ : Z;
  maxr : Q;
  elo : list Q;
  ela : list Q;
  er : list Q;
  csv_duplicates : list Circle
}.

(** The two functions imported from [utils]. The matcher receives the
    predicted mask, the coordinates and [rmv_oob_csvs]; the notices it
    writes itself about duplicates are not part of the log. *)
Record Utils : Type := mkUtils {
  get_id : nat -> string;
  template_match_t2c : array2 -> list Circle -> Z -> MatchResult
}.

(** The two methods of the keras model that [get_metrics] calls. *)
Record KerasModel : Type := mkModel {
  predict : list array2 -> list array2;
  evaluate : list array2 -> list array2 -> Q
}.

(** The nine lists filled by the second loop of [get_metrics]. *)
Module Acc.
Record t : Type := mk {
  recall : list Q;
  precision : list Q;
  fscore : list Q;
  frac_new : list Q;
  frac_new2 : list Q;
  maxrad : list Q;
  err_lo : list (list Q);
  err_la : list (list Q);
  err_r : list (list Q)
}.
Definition empty : t := mk [] [] [] [] [] [] [] [] [].
End Acc.

(* ------------------------------------------------------------------ *)
(** ** [get_metrics], first loop: the csvs of human-counted craters      *)
(* ------------------------------------------------------------------ *)

Definition minrad : Z := 2.
Definition maxrad : Z := 50.
Definition cutrad : Q := 8 # 10.

(** Lines 121-125: remove small/large/half craters. *)
Definition csv_filter (dim : Z) (csv : list Row) : list Row :=
  let csv := filter (fun c => Qlt_bool (col_diam c) (inject_Z (2 * maxrad))
                              && Qgt_bool (col_diam c) (inject_Z (2 * minrad))) csv in
  let csv := filter (fun c => Qle_bool (col_x c + cutrad * col_diam c / 2) (inject_Z dim)) csv in
  let csv := filter (fun c => Qle_bool (col_y c + cutrad * col_diam c / 2) (inject_Z dim)) csv in
  let csv := filter (fun c => Qgt_bool (col_x c - cutrad * col_diam c / 2) 0) csv in
  let csv := filter (fun c => Qgt_bool (col_y c - cutrad * col_diam c / 2) 0) csv in
  csv.

(** Line 129: the rows [(x, y, radius)]. *)
Definition csv_coords (csv : list Row) : list Circle :=
  map (fun c => (col_x c, col_y c, col_diam c / 2)) csv.

(** Lines 119-130, the body of the first loop: the entry appended to [csvs]. *)
Definition read_csv (U : Utils) (craters : string -> option (list Row))
    (dim : Z) (i : nat) : M csv_entry :=
  match craters (get_id U i) with
  | None => raise KeyError
  | Some csv =>
      let csv := csv_filter dim csv in
      if (length csv <? 3)%nat then ret Sentinel
      else ret (Coords (csv_coords csv))
  end.

(* ------------------------------------------------------------------ *)
(** ** [get_metrics], second loop: the custom metrics of one image      *)
(* ------------------------------------------------------------------ *)

(** Lines 146-150. *)
Definition image_metrics (beta : Z) (m : MatchResult) : M (Q * Q * Q * Q * Q) :=
  p <- fdiv (inject_Z (N_match m))
            (inject_Z (N_match m + (N_templ m - N_match m))) ;;
  r <- fdiv (inject_Z (N_match m)) (inject_Z (N_csv m)) ;;
  f <- fdiv (inject_Z (1 + beta ^ 2) * (r * p)) (p * inject_Z (beta ^ 2) + r) ;;
  fn <- fdiv (inject_Z (N_templ m - N_match m)) (inject_Z (N_templ m)) ;;
  fn2 <- fdiv (inject_Z (N_templ m - N_match m)) (inject_Z (N_csv m)) ;;
  ret (p, r, f, fn, fn2).

(** Lines 151-159: the nine appends. *)
Definition append_all (L : Acc.t) (v : Q * Q * Q * Q * Q) (m : MatchResult) : Acc.t :=
  let '(p, r, f, fn, fn2) := v in
  Acc.mk (Acc.recall L ++ [r]) (Acc.precision L ++ [p]) (Acc.fscore L ++ [f])
         (Acc.frac_new L ++ [fn]) (Acc.frac_new2 L ++ [fn2])
         (Acc.maxrad L ++ [maxr m])
         (Acc.err_lo L ++ [elo m]) (Acc.err_la L ++ [ela m])
         (Acc.err_r L ++ [er m]).

Definition skipping_fmt : string :=
  "skipping iteration %d,N_csv=%d,N_templ=%d,N_match=%d".
Definition duplicate_fmt : string :=
  "duplicate(s) (shown above) found in image %d".

(** Lines 140-164, the body of the second loop for image [i]. *)
Definition image_step (U : Utils) (beta : Z) (preds : list array2)
    (csvs : list csv_entry) (i : nat) (L : Acc.t) : M Acc.t :=
  e <- lift (index csvs (Z.of_nat i)) ;;
  if (len e <? 3)%nat then ret L           (* continue *)
  else
    match e with
    | Sentinel => ret L                    (* a placeholder has length 1 *)
    | Coords c =>
        pred <- lift (index preds (Z.of_nat i)) ;;
        let m := template_match_t2c U pred c 0%Z in
        if (N_match m >? 0)%Z then
          v <- image_metrics beta m ;;
          let L' := append_all L v m in
          (if (0 <? length (csv_duplicates m))%nat
           then print duplicate_fmt [Int (Z.of_nat i)] else ret tt) ;;;
          ret L'
        else
          print skipping_fmt
                [Int (Z.of_nat i); Int (N_csv m); Int (N_templ m); Int (N_match m)] ;;;
          ret L
    end.

(** The second loop, over the images in the order [order]; the source runs
    it with [order = range(n_csvs)]. *)
Definition metrics_loop (U : Utils) (beta : Z) (preds : list array2)
    (csvs : list csv_entry) (order : list nat) : M Acc.t :=
  for_each (image_step U beta preds csvs) order Acc.empty.

(* ------------------------------------------------------------------ *)
(** ** [get_metrics], lines 167-186: the summary                        *)
(* ------------------------------------------------------------------ *)

(** The numpy reductions the summary applies, and the lists it applies
    them to. *)
Inductive reduction : Type := Mean | Std | Max.
Inductive series : Type :=
| Recall | Precision | Fscore | Frac_new | Frac_new2 | Maxrad
| Err_lo | Err_la | Err_r.

(** The array numpy builds from one of the nine lists. *)
Definition series_of (L : Acc.t) (s : series) : result (list Q) :=
  match s with
  | Recall => inr (Acc.recall L)
  | Precision => inr (Acc.precision L)
  | Fscore => inr (Acc.fscore L)
  | Frac_new => inr (Acc.frac_new L)
  | Frac_new2 => inr (Acc.frac_new2 L)
  | Maxrad => inr (Acc.maxrad L)
  | Err_lo => Np.flatten (Acc.err_lo L)
  | Err_la => Np.flatten (Acc.err_la L)
  | Err_r => Np.flatten (Acc.err_r L)
  end.

Definition reduce (r : reduction) (l : list Q) : result value :=
  match r with
  | Mean => inr (Np.mean l)
  | Std => inr (Np.std l)
  | Max => Np.max l
  end.

(** The left operand of [%] in a [print]: one string literal, or two
    literals with [/] between them. *)
Inductive fmt_expr : Type :=
| Str (s : string)
| StrDiv (a b : string).

(** Python has no [/] on strings. *)
Definition eval_fmt (f : fmt_expr) : result string :=
  match f with
  | Str s => inr s
  | StrDiv _ _ => inl TypeError
  end.

(** The right operand of [%]: a tuple of variables and reductions. *)
Inductive arg : Type :=
| Const (v : value)
| Stat (r : reduction) (s : series).

Definition eval_arg (L : Acc.t) (a : arg) : result value :=
  match a with
  | Const v => inr v
  | Stat r s =>
      match series_of L s with
      | inl e => inl e
      | inr l => reduce r l
      end
  end.

Record print_stmt : Type := mkPrint { fmt : fmt_expr; args : list arg }.

(** [print(fmt % args)]: the format is evaluated first, then the tuple. *)
Definition exec_print (L : Acc.t) (p : print_stmt) : M unit :=
  f <- lift (eval_fmt (fmt p)) ;;
  vs <- collect (fun a => lift (eval_arg L a)) (args p) ;;
  print f vs.

Definition recall_fmt : string :=
  "mean and std of N_match/N_csv (recall) = %f, %f".

(** Lines 168-186, statement by statement. *)
Definition summary_prints (beta : Z) : list print_stmt :=
  [ mkPrint (Str recall_fmt) [Stat Mean Recall; Stat Std Recall];
    mkPrint (StrDiv "mean and std of N_match/(N_match + (N_templ-N_match)) "
                    "(precision) = %f, %f")
            [Stat Mean Precision; Stat Std Precision];
    mkPrint (Str "mean and std of F_%d score = %f, %f")
            [Const (Int beta); Stat Mean Fscore; Stat Std Fscore];
    mkPrint (StrDiv "mean and std of (N_template - N_match)/N_template (fraction "
                    "of craters that are new) = %f, %f")
            [Stat Mean Frac_new; Stat Std Frac_new];
    mkPrint (StrDiv "mean and std of (N_template - N_match)/N_csv (fraction of "
                    "craters that are new, 2) = %f, %f")
            [Stat Mean Frac_new2; Stat Std Frac_new2];
    mkPrint (StrDiv "mean fractional difference between pred and GT craters = "
                    "%f, %f, %f")
            [Stat Mean Err_lo; Stat Mean Err_la; Stat Mean Err_r];
    mkPrint (StrDiv "mean and std of maximum detected pixel radius in an image = "
                    "%f, %f")
            [Stat Mean Maxrad; Stat Std Maxrad];
    mkPrint (StrDiv "absolute maximum detected pixel radius over all images = "
                    "%f")
            [Stat Max Maxrad];
    mkPrint (Str "") [] ].

Definition summary (beta : Z) (L : Acc.t) : M unit :=
  for_each (fun p _ => exec_print L p) (summary_prints beta) tt.

(* ------------------------------------------------------------------ *)
(** ** [get_metrics]                                                    *)
(* ------------------------------------------------------------------ *)

Definition banner_fmt : string := "*********Custom Loss*********".
Definition xe_fmt : string := "binary XE score = %f".

Definition get_metrics (U : Utils) (data : list array2 * list array2)
    (craters : string -> option (list Row)) (dim : Z) (model : KerasModel)
    (beta : Z) : M unit :=
  let X := fst data in
  let Y := snd data in
  let n_csvs := length X in
  csvs <- collect (read_csv U craters dim) (seq 0 n_csvs) ;;
  print "" [] ;;;
  print banner_fmt [] ;;;
  let preds := predict model X in
  L <- metrics_loop U beta preds csvs (seq 0 n_csvs) ;;
  print xe_fmt [Float (evaluate model X Y)] ;;;
  if (3 <? length (Acc.recall L))%nat then summary beta L else ret tt.

(** [beta=1] in the signature of [get_metrics]. *)
Definition beta_default : Z := 1.

(* ------------------------------------------------------------------ *)
(** ** Derived notions used in the statements                           *)
(* ------------------------------------------------------------------ *)

(** The matcher's result for image [i], when the second loop reaches the
    call: [csvs[i]] has at least three rows and [preds[i]] exists. *)
Definition match_of (U : Utils) (preds : list array2) (csvs : list csv_entry)
    (i : nat) : option MatchResult :=
  match index csvs (Z.of_nat i), index preds (Z.of_nat i) with
  | inr (Coords c), inr pred =>
      if (length c <? 3)%nat then None else Some (template_match_t2c U pred c 0%Z)
  | _, _ => None
  end.

(** The match results of the images that pass both guards (at least three
    usable craters, [N_match > 0]), in processing order. *)
Definition included (U : Utils) (preds : list array2) (csvs : list csv_entry)
    (order : list nat) : list MatchResult :=
  filter (fun m => (N_match m >? 0)%Z)
         (flat_map (fun i => match match_of U preds csvs i with
                             | Some m => [m]
                             | None => []
                             end) order).

(** Two printed values denote the same number. *)
Definition value_eq (v w : value) : Prop :=
  match v, w with
  | Int a, Int b => a = b
  | Float a, Float b => a == b
  | Root a, Root b => a == b
  | NaN, NaN => True
  | _, _ => False
  end.

(** Two evaluations agree: the same exception, or the same number. *)
Definition outcome_eq (a b : result value) : Prop :=
  match a, b with
  | inl e, inl e' => e = e'
  | inr v, inr w => value_eq v w
  | _, _ => False
  end.

(** Every reduction the summary names, over all its statements. *)
Definition summary_args (beta : Z) : list arg :=
  flat_map args (summary_prints beta).

(** The five successive selections of [csv_filter] as one test. *)
Definition keeps (dim : Z) (c : Row) : bool :=
  (Qlt_bool (col_diam c) (inject_Z (2 * maxrad))
   && Qgt_bool (col_diam c) (inject_Z (2 * minrad)))
  && (Qle_bool (col_x c + cutrad * col_diam c / 2) (inject_Z dim)
  && (Qle_bool (col_y c + cutrad * col_diam c / 2) (inject_Z dim)
  && (Qgt_bool (col_x c - cutrad * col_diam c / 2) 0
  && Qgt_bool (col_y c - cutrad * col_diam c / 2) 0))).

(** Field-wise concatenation of two records of lists. *)
Definition Acc_app (a b : Acc.t) : Acc.t :=
  Acc.mk (Acc.recall a ++ Acc.recall b) (Acc.precision a ++ Acc.precision b)
         (Acc.fscore a ++ Acc.fscore b) (Acc.frac_new a ++ Acc.frac_new b)
         (Acc.frac_new2 a ++ Acc.frac_new2 b) (Acc.maxrad a ++ Acc.maxrad b)
         (Acc.err_lo a ++ Acc.err_lo b) (Acc.err_la a ++ Acc.err_la b)
         (Acc.err_r a ++ Acc.err_r b).

(** What image [i] adds to the nine lists, or the exception it raises. *)
Definition delta (U : Utils) (beta : Z) (preds : list array2)
    (csvs : list csv_entry) (i : nat) : result Acc.t :=
  snd (image_step U beta preds csvs i Acc.empty []).

Definition delta_or_empty (U : Utils) (beta : Z) (preds : list array2)
    (csvs : list csv_entry) (i : nat) : Acc.t :=
  match delta U beta preds csvs i with
  | inr D => D
  | inl _ => Acc.empty
  end.

(** The five numbers lines 146-150 compute, or the exception they raise. *)
Definition image_values (beta : Z) (m : MatchResult) : result (Q * Q * Q * Q * Q) :=
  snd (image_metrics beta m []).

(** A computation that prints nothing and does not read the log. *)
Definition silent {A} (c : M A) : Prop :=
  forall out, c out = (out, snd (c [])).

(** What an image that passes both guards adds to the nine lists. *)
Definition entry (beta : Z) (m : MatchResult) : Acc.t :=
  match image_values beta m with
  | inr v => append_all Acc.empty v m
  | inl _ => Acc.empty
  end.

(* ------------------------------------------------------------------ *)
(** ** The row filter on binary64 values                                *)
(* ------------------------------------------------------------------ *)

(** Lines 121-125 as numpy evaluates them: the columns hold binary64
    numbers, every product, quotient, sum and difference is rounded to the
    nearest binary64 number, and the integers [2 * maxrad], [2 * minrad],
    [2], [0] and [dim] are converted before they are compared. *)
Module F64.

#[local] Set Warnings "-inexact-float".
Local Open Scope float_scope.

Record Row : Type := mkRow { x : float; y : float; diam : float }.

(** The binary64 number of an integer; exact below [2^53] in absolute
    value, which covers the sizes of images. *)
Definition of_int (z : Z) : float :=
  if (z <? 0)%Z then - of_uint63 (Uint63.of_Z (- z)) else of_uint63 (Uint63.of_Z z).

(** [cutrad = 0.8]: the binary64 number nearest to 8/10. *)
Definition cutrad : float := 0.8.

(** [a > b] *)
Definition gtb (a b : float) : bool := b <? a.

Definition csv_filter (dim : Z) (csv : list Row) : list Row :=
  let csv := filter (fun c => (diam c <? of_int (2 * maxrad))
                              && gtb (diam c) (of_int (2 * minrad))) csv in
  let csv := filter (fun c => x c + cutrad * diam c / 2 <=? of_int dim) csv in
  let csv := filter (fun c => y c + cutrad * diam c / 2 <=? of_int dim) csv in
  let csv := filter (fun c => gtb (x c - cutrad * diam c / 2) 0) csv in
  let csv := filter (fun c => gtb (y c - cutrad * diam c / 2) 0) csv in
  csv.

(** The row filter as the specification words it: radius strictly inside
    the band, and the centre farther than [cutrad] times the diameter from
    each of the four edges of the [dim] by [dim] image. *)
Definition spec_keeps (dim : Z) (c : Row) : bool :=
  (of_int minrad <? diam c / 2) && (diam c / 2 <? of_int maxrad)
  && (cutrad * diam c <? x c)
  && (cutrad * diam c <? y c)
  && (cutrad * diam c <? of_int dim - x c)
  && (cutrad * diam c <? of_int dim - y c).

(** Two rows at the left and right border of a 256 by 256 image. *)
Definition at_right : Row := mkRow 254.36 128 4.1.
Definition at_left : Row := mkRow 1.64 128 4.1.

End F64.

(** Two arrays agree up to the order of their entries, or numpy raises the
    same exception on both. *)
Definition same_entries (a b : result (list Q)) : Prop :=
  match a, b with
  | inl e, inl e' => e = e'
  | inr l, inr l' => Permutation l l'
  | _, _ => False
  end.

(* ------------------------------------------------------------------ *)
(** ** numpy arrays of images                                           *)
(* ------------------------------------------------------------------ *)

(** An image is the list of its rows; a pixel of an input image is its
    vector of channels, a pixel of a target is a number. An image without
    rows is taken to have no columns. *)
Definition image (A : Type) : Type := list (list A).

Definition width {A} (m : image A) : nat := length (hd [] m).

(** [m.shape[0], m.shape[1]] *)
Definition shape {A} (m : image A) : nat * nat := (length m, width m).

(** A bound of a slice, brought into [0, n]. *)
Definition clamp (n : nat) (x : Z) : nat :=
  if (x <? 0)%Z then Z.to_nat (Z.max 0 (Z.of_nat n + x)) else Nat.min (Z.to_nat x) n.

(** [l[a:b]] *)
Definition py_slice {A} (l : list A) (a b : Z) : list A :=
  firstn (clamp (length l) b - clamp (length l) a) (skipn (clamp (length l) a) l).

(** [np.fliplr(m)] and [np.flipud(m)] *)
Definition fliplr {A} (m : image A) : image A := map (@rev A) m.
Definition flipud {A} (m : image A) : image A := rev m.

(** [np.pad(m, ((p, p), (p, p), (0, 0)), mode='constant')], and
    [np.pad(m, (p,), mode='constant')] on a target: [p] rows and [p] columns
    of the zero pixel [z] on each side. *)
Definition pad {A} (p : nat) (z : A) (m : image A) : image A :=
  repeat (repeat z (width m + 2 * p)) p
  ++ map (fun row => repeat z p ++ row ++ repeat z p) m
  ++ repeat (repeat z (width m + 2 * p)) p.

(** [m[r0:r1, c0:c1]] *)
Definition crop {A} (m : image A) (r0 r1 c0 c1 : Z) : image A :=
  map (fun row => py_slice row c0 c1) (py_slice m r0 r1).

(** [m.swapaxes(0, 1)] *)
Definition transpose {A} (m : image A) : image A :=
  fold_right (fun row acc => map (fun ac => fst ac :: snd ac) (combine row acc))
             (repeat [] (width m)) m.

(** [np.rot90(m, k)] *)
Definition rot90 {A} (m : image A) (k : Z) : image A :=
  match (k mod 4)%Z with
  | 0%Z => m
  | 1%Z => transpose (fliplr m)
  | 2%Z => fliplr (flipud m)
  | _ => fliplr (transpose m)
  end.

(** A list of length [n], or one element repeated [n] times. *)
Definition stretch {X} (n : nat) (l : list X) : option (list X) :=
  if (length l =? n)%nat then Some l
  else match l with
       | [a] => Some (repeat a n)
       | _ => None
       end.

Fixpoint all_some {X} (l : list (option X)) : option (list X) :=
  match l with
  | [] => Some []
  | None :: _ => None
  | Some a :: l' =>
      match all_some l' with
      | Some r => Some (a :: r)
      | None => None
      end
  end.

(** The value [x] broadcast to the shape of [old]. *)
Definition broadcast {A} (old x : image A) : option (image A) :=
  match stretch (length old) x with
  | None => None
  | Some rows => all_some (map (stretch (width old)) rows)
  end.

(** [d[j] = x]: an [IndexError] outside the batch, a [ValueError] when [x]
    cannot be broadcast to the shape of [d[j]]. Where [x] is a view of
    [d[j]] itself (a flip or a rotation of it), numpy reads it in full
    before it writes. *)
Definition assign {A} (d : list (image A)) (j : nat) (x : image A)
    : result (list (image A)) :=
  match nth_error d j with
  | None => inl IndexError
  | Some old =>
      match broadcast old x with
      | None => inl ValueError
      | Some x' => inr (firstn j d ++ x' :: skipn (S j) d)
      end
  end.

(* ------------------------------------------------------------------ *)
(** ** [custom_image_generator]                                         *)
(* ------------------------------------------------------------------ *)

(** Computations that may raise and do not print. *)
Definition rbind {X Y} (r : result X) (k : X -> result Y) : result Y :=
  match r with
  | inl e => inl e
  | inr a => k a
  end.

Fixpoint rfor {X S} (f : X -> S -> result S) (l : list X) (s : S) : result S :=
  match l with
  | [] => inr s
  | a :: l' => rbind (f a s) (rfor f l')
  end.

(** The arrays [np.random.randint] returns for one batch: entry [j] of the
    two arrays of flips, of the shifts [h] and [v], and of the rotations
    [r]. *)
Record Draws : Type := mkDraws {
  flip_lr : nat -> Z;
  flip_ud : nat -> Z;
  shift_h : nat -> Z;
  shift_v : nat -> Z;
  rot : nat -> Z
}.

(** [np.where(a == 1)[0]] for an array [a] of length [bs]. *)
Definition where_one (a : nat -> Z) (bs : nat) : list nat :=
  filter (fun j => (a j =? 1)%Z) (seq 0 bs).

Definition npix : nat := 15.

Section Generator.

Variables A B : Type.
(** The zero pixel of the inputs and of the targets. *)
Variables (zA : A) (zB : B).

Definition batch_pair : Type := (list (image A) * list (image B))%type.

(** [d[j], t[j] = fa(d[j]), fb(t[j])]: both right-hand sides first. *)
Definition assign_both (fa : image A -> image A) (fb : image B -> image B)
    (j : nat) (s : batch_pair) : result batch_pair :=
  rbind (index (fst s) (Z.of_nat j)) (fun dj =>
  rbind (index (snd s) (Z.of_nat j)) (fun tj =>
  rbind (assign (fst s) j (fa dj)) (fun d' =>
  rbind (assign (snd s) j (fb tj)) (fun t' =>
  inr (d', t'))))).

(** The padded image cut at rows [npix + h : L + h + npix] and columns
    [npix + v : W + v + npix]. *)
Definition shifted {X} (z : X) (L W : nat) (h v : Z) (m : image X) : image X :=
  crop (pad npix z m)
       (Z.of_nat npix + h) (Z.of_nat L + h + Z.of_nat npix)
       (Z.of_nat npix + v) (Z.of_nat W + v + Z.of_nat npix).

(** Lines 87-92, the body of the loop over [range(bs)]. *)
Definition shift_rot (L W : nat) (dr : Draws) (j : nat) (s : batch_pair)
    : result batch_pair :=
  rbind (index (fst s) (Z.of_nat j)) (fun dj =>
  rbind (assign (fst s) j (shifted zA L W (shift_h dr j) (shift_v dr j) dj)) (fun d' =>
  rbind (index (snd s) (Z.of_nat j)) (fun tj =>
  rbind (assign (snd s) j (shifted zB L W (shift_h dr j) (shift_v dr j) tj)) (fun t' =>
  assign_both (fun m => rot90 m (rot dr j)) (fun m => rot90 m (rot dr j)) j (d', t'))))).

(** Lines 69-93: the pair yielded for the loop index [i]. *)
Definition batch (L W bs : nat) (dr : Draws) (data : list (image A))
    (target : list (image B)) (i : nat) : result batch_pair :=
  let d := py_slice data (Z.of_nat i) (Z.of_nat i + Z.of_nat bs) in
  let t := py_slice target (Z.of_nat i) (Z.of_nat i + Z.of_nat bs) in
  rbind (rfor (assign_both fliplr fliplr) (where_one (flip_lr dr) bs) (d, t)) (fun s =>
  rbind (rfor (assign_both flipud flipud) (where_one (flip_ud dr) bs) s) (fun s =>
  rfor (shift_rot L W dr) (seq 0 bs) s)).

(** Line 66: [data[0].shape[0], data[0].shape[1]]. *)
Definition first_shape (data : list (image A)) : result (nat * nat) :=
  match data with
  | [] => inl IndexError
  | m :: _ => inr (shape m)
  end.

(** [range(0, n, bs)]: the loop indices of one pass. *)
Definition py_range (n : nat) (bs : Z) : result (list nat) :=
  if (bs =? 0)%Z then inl ValueError
  else if (bs <? 0)%Z then inr []
  else inr (map (fun k => (k * Z.to_nat bs)%nat)
                (seq 0 ((n + Z.to_nat bs - 1) / Z.to_nat bs))).

(** Where the generator stands after some calls of [next]: suspended at a
    [yield] (or not yet started), finished by an exception, or inside a
    pass of [while True] that never yields. *)
Inductive gen_status : Type :=
| Suspended
| Raised (e : exn)
| Hangs.

(** The pairs yielded by the first [k] calls of [next], and where the
    generator stands then; call number [k] uses the draws [draws k]. *)
Fixpoint custom_image_generator (data : list (image A)) (target : list (image B))
    (bs : Z) (draws : nat -> Draws) (k : nat) : list batch_pair * gen_status :=
  match k with
  | O => ([], Suspended)
  | S k' =>
      let '(ys, st) := custom_image_generator data target bs draws k' in
      match st with
      | Suspended =>
          match first_shape data with
          | inl e => (ys, Raised e)
          | inr (L, W) =>
              match py_range (length data) bs with
              | inl e => (ys, Raised e)
              | inr [] => (ys, Hangs)
              | inr (i0 :: rest) =>
                  let i := nth (k' mod length (i0 :: rest)) (i0 :: rest) 0%nat in
                  match batch L W (Z.to_nat bs) (draws k') data target i with
                  | inl e => (ys, Raised e)
                  | inr b => (ys ++ [b], Suspended)
                  end
              end
          end
      | _ => (ys, st)
      end
  end.

End Generator.

Arguments assign_both {A B} fa fb j s.
Arguments shift_rot {A B} zA zB L W dr j s.
Arguments batch {A B} zA zB L W bs dr data target i.
Arguments first_shape {A} data.
Arguments custom_image_generator {A B} zA zB data target bs draws k.

(** [bs=32] in the signature of [custom_image_generator]. *)
Definition bs_default : Z := 32.

(** All rows of an [L] by [W] image. *)
Definition rect {A} (L W : nat) (m : image A) : Prop :=
  length m = L /\ Forall (fun row => length row = W) m.

(** A pair of [n] inputs and [n] targets, all [L] by [W]. *)
Definition full_batch {A B} (L W n : nat) (s : list (image A) * list (image B)) : Prop :=
  length (fst s) = n /\ length (snd s) = n /\
  Forall (rect L W) (fst s) /\ Forall (rect L W) (snd s).

(** One step of building a column-major copy: a row put in front of the
    columns collected so far. *)
Definition zipcons {A} (row : list A) (acc : list (list A)) : list (list A) :=
  map (fun ac => fst ac :: snd ac) (combine row acc).

(** The targets are the pixel-wise image of the inputs. *)
Definition aligned {A B} (g : A -> B) (s : list (image A) * list (image B)) : Prop :=
  snd s = map (map (map g)) (fst s).

(** The pixel-wise image of an image. *)
Definition map_image {A B} (g : A -> B) (m : image A) : image B := map (map g) m.

(* ------------------------------------------------------------------ *)
(** ** A small data set                                                 *)
(* ------------------------------------------------------------------ *)

Module Ex.

(** Stand-in for [utils.processing.get_id]. *)
Definition get_id (i : nat) : string :=
  String.append "img_0000" (String (Ascii.ascii_of_nat (48 + i)) EmptyString).

Definition same_circle (a b : Circle) : bool :=
  let '(x, y, r) := a in
  let '(x', y', r') := b in
  Qeq_bool x x' && Qeq_bool y y' && Qeq_bool r r'.

Definition as_circle (row : list Q) : Circle :=
  match row with
  | [x; y; r] => (x, y, r)
  | _ => (0, 0, 0)
  end.

(** Stand-in for the matcher: the mask is read as the list of detected
    circles, and a detection matches when it coincides with a ground-truth
    circle. *)
Definition matcher (pred : array2) (c : list Circle) (rmv_oob_csvs : Z) : MatchResult :=
  let det := map as_circle pred in
  let hit := filter (fun d => existsb (same_circle d) c) det in
  mkMatch (Z.of_nat (length hit)) (Z.of_nat (length c)) (Z.of_nat (length det))
          (fold_right Qmax 0 (map (fun d => snd d) hit))
          (map (fun _ => 0) hit) (map (fun _ => 0) hit) (map (fun _ => 0) hit)
          [].

Definition utils : Utils := mkUtils get_id matcher.

(** The model predicts the image itself and scores 1/10. *)
Definition model : KerasModel := mkModel (fun X => X) (fun _ _ => 1 # 10).

Definition row (x y d : Z) : Row := mkRow (inject_Z x) (inject_Z y) (inject_Z d).
Definition det (x y r : Z) : list Q := [inject_Z x; inject_Z y; inject_Z r].

(** Five usable craters; one more is too small and one touches the edge. *)
Definition table0 : list Row :=
  [ row 40 40 20; row 80 40 20; row 120 40 20; row 160 40 20; row 200 40 20;
    row 100 100 3; row 4 100 20 ].
(** One usable crater. *)
Definition table1 : list Row := [ row 40 40 20; row 100 100 200 ].
(** Three usable craters. *)
Definition table2 : list Row := [ row 40 80 20; row 80 80 20; row 120 80 20 ].

Definition craters (id : string) : option (list Row) :=
  if String.eqb id (get_id 0) then Some table0
  else if String.eqb id (get_id 1) then Some table1
  else if String.eqb id (get_id 2) then Some table2
  else if String.eqb id (get_id 3) then Some table0
  else if String.eqb id (get_id 4) then Some table2
  else if String.eqb id (get_id 5) then Some table0
  else None.

(** Image 0: four of five craters found, one spurious detection. *)
Definition img0 : array2 :=
  [ det 40 40 10; det 80 40 10; det 120 40 10; det 160 40 10; det 30 200 7 ].
Definition img1 : array2 := [ det 40 40 10 ].
(** Image 2: two detections, none on a crater. *)
Definition img2 : array2 := [ det 10 10 5; det 200 200 5 ].
Definition img3 : array2 := [ det 40 40 10; det 80 40 10; det 7 7 3 ].
Definition img4 : array2 := [ det 40 80 10; det 80 80 10; det 120 80 10 ].
Definition img5 : array2 := [ det 200 40 10; det 9 9 4; det 8 8 4; det 7 7 4 ].

Definition X3 : list array2 := [img0; img1; img2].
Definition X6 : list array2 := [img0; img1; img2; img3; img4; img5].
Definition data3 : list array2 * list array2 := (X3, X3).
Definition data6 : list array2 * list array2 := (X6, X6).

Definition csvs3 : list csv_entry :=
  Eval vm_compute in
    match collect (read_csv utils craters 256) (seq 0 3) [] with
    | (_, inr l) => l
    | _ => []
    end.

Definition csvs6 : list csv_entry :=
  Eval vm_compute in
    match collect (read_csv utils craters 256) (seq 0 6) [] with
    | (_, inr l) => l
    | _ => []
    end.

(** The second loop over the six images, and the lists it leaves. *)
Definition loop6 : log * result Acc.t :=
  Eval vm_compute in metrics_loop utils 1 X6 csvs6 (seq 0 6) [].

Definition lists6 : Acc.t :=
  Eval vm_compute in
    match snd loop6 with
    | inr L => L
    | inl _ => Acc.empty
    end.

(** The same loop after the blank line and the banner. *)
Definition loop6_banner : log * result Acc.t :=
  Eval vm_compute in
    metrics_loop utils 1 X6 csvs6 (seq 0 6) [("", []); (banner_fmt, [])].

End Ex.

(** Two 2 by 2 inputs with one channel, and their targets. *)
Module ExG.

Definition img_a : image (list Q) := [[[1]; [2]]; [[3]; [4]]].
Definition img_b : image (list Q) := [[[5]; [6]]; [[7]; [8]]].
Definition tgt_a : image Q := [[1; 0]; [0; 1]].
Definition tgt_b : image Q := [[0; 1]; [1; 1]].

(** Flip the first pair left/right, shift the second one column, rotate
    the first by a quarter turn. *)
Definition draws (n : nat) : Draws :=
  mkDraws (fun j => if (j =? 0)%nat then 1%Z else 0%Z)
          (fun _ => 0%Z)
          (fun _ => 0%Z)
          (fun j => if (j =? 1)%nat then 1%Z else 0%Z)
          (fun j => if (j =? 0)%nat then 1%Z else 0%Z).

(** The first channel of a pixel. *)
Definition channel0 (px : list Q) : Q := hd 0 px.

(** The first pair yielded from the two inputs and their first channels. *)
Definition yielded : result (list (image (list Q)) * list (image Q)) :=
  Eval vm_compute in
    batch [0] 0 2 2 2 (draws 0) [img_a; img_b]
          (map (map (map channel0)) [img_a; img_b]) 0.

End ExG.

(* ================================================================== *)
(** * Properties                                                        *)
(* ================================================================== *)

(* ------------------------------------------------------------------ *)
(** ** Comparisons and indexing                                         *)
(* ------------------------------------------------------------------ *)

Lemma Qlt_bool_iff (a b : Q) : Qlt_bool a b = true <-> a < b.
Proof.
  unfold Qlt_bool. rewrite negb_true_iff.
  split; intro H.
  - apply Qnot_le_lt. intro Hle. apply Qle_bool_iff in Hle. congruence.
  - destruct (Qle_bool b a) eqn:E; [|reflexivity].
    apply Qle_bool_iff in E. exfalso. exact (Qlt_not_le _ _ H E).
Qed.

Lemma Qgt_bool_iff (a b : Q) : Qgt_bool a b = true <-> b < a.
Proof. unfold Qgt_bool. apply Qlt_bool_iff. Qed.

Lemma index_nat {A} (l : list A) (i : nat) :
  index l (Z.of_nat i) =
  match nth_error l i with Some a => inr a | None => inl IndexError end.
Proof.
  unfold index.
  destruct (Z.of_nat i <? 0)%Z eqn:E; [apply Z.ltb_lt in E; lia|].
  rewrite E, Nat2Z.id. reflexivity.
Qed.

Lemma index_in_range {A} (l : list A) (i : Z) (d : A) :
  (0 <= i < Z.of_nat (length l))%Z -> index l i = inr (nth (Z.to_nat i) l d).
Proof.
  intros [H0 H1]. unfold index.
  destruct (i <? 0)%Z eqn:E; [apply Z.ltb_lt in E; lia|].
  rewrite E.
  assert (Hn : (Z.to_nat i < length l)%nat) by lia.
  rewrite (nth_error_nth' l d Hn). reflexivity.
Qed.

(* ------------------------------------------------------------------ *)
(** ** [get_param_i]                                                    *)
(* ------------------------------------------------------------------ *)

(** C10. For a non-empty list [param] and a natural number [i],
    [get_param_i param i] returns [param[i]] when [i < len(param)] and
    [param[0]] otherwise; it never raises. *)
Theorem get_param_i_spec {A} (param : list A) (i : Z) (d : A) :
  param <> [] -> (0 <= i)%Z ->
  get_param_i param i =
  inr (if (i <? Z.of_nat (length param))%Z
       then nth (Z.to_nat i) param d else nth 0 param d).
Proof.
  intros Hne Hi. unfold get_param_i.
  rewrite Z.gtb_ltb.
  destruct (i <? Z.of_nat (length param))%Z eqn:E.
  - apply Z.ltb_lt in E. apply index_in_range. lia.
  - change 0%nat with (Z.to_nat 0). apply index_in_range.
    destruct param; [congruence | simpl; lia].
Qed.

Lemma get_param_i_spec_witness :
  get_param_i [3; 5; 7]%Z 1 = inr 5%Z /\ get_param_i [3; 5; 7]%Z 4 = inr 3%Z.
Proof.
  split.
  - exact (get_param_i_spec [3; 5; 7]%Z 1 0%Z ltac:(discriminate) ltac:(lia)).
  - exact (get_param_i_spec [3; 5; 7]%Z 4 0%Z ltac:(discriminate) ltac:(lia)).
Defined.

(* ------------------------------------------------------------------ *)
(** ** The row filter of the first loop                                 *)
(* ------------------------------------------------------------------ *)

Lemma filter_filter {A} (f g : A -> bool) (l : list A) :
  filter g (filter f l) = filter (fun a => f a && g a) l.
Proof.
  induction l as [|a l IH]; simpl; [reflexivity|].
  destruct (f a); simpl; [destruct (g a)|]; rewrite ?IH; reflexivity.
Qed.

Lemma csv_filter_keeps (dim : Z) (csv : list Row) :
  csv_filter dim csv = filter (keeps dim) csv.
Proof. unfold csv_filter. rewrite !filter_filter. reflexivity. Qed.

Lemma keeps_iff (dim : Z) (c : Row) :
  keeps dim c = true <->
  2 < col_diam c / 2 /\ col_diam c / 2 < 50 /\
  0 < col_x c - (8 # 10) * (col_diam c / 2) /\
  0 < col_y c - (8 # 10) * (col_diam c / 2) /\
  col_x c + (8 # 10) * (col_diam c / 2) <= inject_Z dim /\
  col_y c + (8 # 10) * (col_diam c / 2) <= inject_Z dim.
Proof.
  unfold keeps, cutrad, maxrad, minrad.
  rewrite !andb_true_iff, !Qlt_bool_iff, !Qgt_bool_iff, !Qle_bool_iff.
  change (inject_Z (2 * 50)) with (inject_Z 100).
  change (inject_Z (2 * 2)) with (inject_Z 4).
  generalize (inject_Z dim) (col_x c) (col_y c) (col_diam c).
  intros D x y d.
  assert (E1 : (8 # 10) * d / 2 == (8 # 10) * (d / 2)) by field.
  rewrite !E1.
  assert (E2 : d / 2 == d * (1 # 2)) by field.
  rewrite !E2.
  change (inject_Z 100) with 100. change (inject_Z 4) with 4.
  split; intro H; repeat split; lra.
Qed.

(** C2, as the code has it. A row of the table is kept if and only if its
    diameter lies strictly between [2 * minrad = 4] and [2 * maxrad = 100]
    (its radius strictly between 2 and 50) and the four border tests of
    lines 122-125 hold on the rounded binary64 values: with the margin
    [cutrad * diameter / 2], that is [cutrad = 0.8] times the radius,
    [x + margin <= dim] and [y + margin <= dim] (not strict), and
    [x - margin > 0] and [y - margin > 0] (strict). *)
Theorem csv_filter64_spec (dim : Z) (csv : list F64.Row) (c : F64.Row) :
  (0 <= dim < 2 ^ 53)%Z ->
  (In c (F64.csv_filter dim csv) <->
   In c csv /\
   (F64.diam c <? 100)%float = true /\ (4 <? F64.diam c)%float = true /\
   (F64.x c + F64.cutrad * F64.diam c / 2 <=? F64.of_int dim)%float = true /\
   (F64.y c + F64.cutrad * F64.diam c / 2 <=? F64.of_int dim)%float = true /\
   (0 <? F64.x c - F64.cutrad * F64.diam c / 2)%float = true /\
   (0 <? F64.y c - F64.cutrad * F64.diam c / 2)%float = true).
Proof.
  intros _. unfold F64.csv_filter. rewrite !filter_filter, filter_In.
  rewrite !andb_true_iff. unfold F64.gtb.
  change (F64.of_int (2 * maxrad)) with 100%float.
  change (F64.of_int (2 * minrad)) with 4%float.
  tauto.
Qed.

Lemma csv_filter64_spec_witness :
  In F64.at_right (F64.csv_filter 256 [F64.at_right; F64.at_left]) /\
  ~ In F64.at_left (F64.csv_filter 256 [F64.at_right; F64.at_left]).
Proof.
  split.
  - apply (proj2 (csv_filter64_spec 256 [F64.at_right; F64.at_left] F64.at_right
                    ltac:(lia))).
    split; [left; reflexivity|]. repeat split; vm_compute; reflexivity.
  - intro H.
    apply (proj1 (csv_filter64_spec 256 [F64.at_right; F64.at_left] F64.at_left
                    ltac:(lia))) in H.
    destruct H as (_ & _ & _ & _ & _ & H & _). vm_compute in H. discriminate.
Defined.

(** C2, as stated, fails: in a 100 by 100 image the crater of diameter 70
    centred at (50, 50) is kept, although its centre is only 50 from every
    edge and 0.8 times its diameter is 56. *)
Lemma csv_filter64_spec_counterexample :
  F64.csv_filter 100 [F64.mkRow 50 50 70] = [F64.mkRow 50 50 70] /\
  F64.spec_keeps 100 (F64.mkRow 50 50 70) = false.
Proof. split; vm_compute; reflexivity. Qed.

(* ------------------------------------------------------------------ *)
(** ** One image of the second loop                                     *)
(* ------------------------------------------------------------------ *)

Lemma fdiv_cases (a b : Q) (out : log) :
  (b == 0 /\ fdiv a b out = (out, inl ZeroDivisionError)) \/
  (~ b == 0 /\ fdiv a b out = (out, inr (a / b))).
Proof.
  unfold fdiv. destruct (Qeq_bool b 0) eqn:E.
  - left. split; [apply Qeq_bool_iff, E | reflexivity].
  - right. split; [apply Qeq_bool_neq, E | reflexivity].
Qed.

Lemma fdiv_pure (a b : Q) (out : log) :
  fdiv a b out = (out, snd (fdiv a b [])).
Proof. unfold fdiv. destruct (Qeq_bool b 0); reflexivity. Qed.

Lemma silent_ret {A} (a : A) : silent (ret a).
Proof. intro out. reflexivity. Qed.

Lemma silent_raise {A} (e : exn) : silent (@raise A e).
Proof. intro out. reflexivity. Qed.

Lemma silent_fdiv (a b : Q) : silent (fdiv a b).
Proof. intro out. apply fdiv_pure. Qed.

Lemma silent_bind {A B} (c : M A) (k : A -> M B) :
  silent c -> (forall a, silent (k a)) -> silent (bind c k).
Proof.
  intros Hc Hk out. unfold bind.
  rewrite (Hc out), (Hc []).
  destruct (snd (c [])) as [e | a]; [reflexivity|].
  apply Hk.
Qed.

Lemma image_metrics_pure (beta : Z) (m : MatchResult) (out : log) :
  image_metrics beta m out = (out, image_values beta m).
Proof.
  revert out. change (silent (image_metrics beta m)).
  unfold image_metrics.
  repeat (apply silent_bind; [apply silent_fdiv | intro]).
  apply silent_ret.
Qed.

Lemma bind_inr {A B} (c : M A) (k : A -> M B) out out' b :
  bind c k out = (out', inr b) ->
  exists a out1, c out = (out1, inr a) /\ k a out1 = (out', inr b).
Proof.
  unfold bind. destruct (c out) as [out1 [e | a]]; [discriminate|].
  intro H. exists a, out1. split; [reflexivity | exact H].
Qed.

Lemma fdiv_inr (a b : Q) out out' q :
  fdiv a b out = (out', inr q) -> q = a / b /\ out' = out /\ ~ b == 0.
Proof.
  destruct (fdiv_cases a b out) as [[_ E] | [Hb E]]; rewrite E; intro H.
  - discriminate.
  - inversion H. auto.
Qed.

(** The values are the formulas of lines 146-150. *)
Lemma image_values_formulas (beta : Z) (m : MatchResult) v :
  image_values beta m = inr v ->
  let p := inject_Z (N_match m) / inject_Z (N_match m + (N_templ m - N_match m)) in
  let r := inject_Z (N_match m) / inject_Z (N_csv m) in
  v = (p, r,
       inject_Z (1 + beta ^ 2) * (r * p) / (p * inject_Z (beta ^ 2) + r),
       inject_Z (N_templ m - N_match m) / inject_Z (N_templ m),
       inject_Z (N_templ m - N_match m) / inject_Z (N_csv m)).
Proof.
  intro H. cbv zeta.
  assert (E : image_metrics beta m [] = ([], inr v)).
  { rewrite image_metrics_pure, H. reflexivity. }
  clear H. unfold image_metrics in E.
  repeat match type of E with
         | bind (fdiv _ _) _ _ = _ =>
             apply bind_inr in E; destruct E as (? & ? & Hd & E);
             apply fdiv_inr in Hd; destruct Hd as (-> & -> & _)
         end.
  unfold ret in E. inversion E. reflexivity.
Qed.

(** The body of the second loop, case by case. *)
Lemma image_step_eq (U : Utils) beta preds csvs (i : nat) (L : Acc.t) (out : log) :
  image_step U beta preds csvs i L out =
  match index csvs (Z.of_nat i) with
  | inl e => (out, inl e)
  | inr e =>
      if (len e <? 3)%nat then (out, inr L)
      else
        match e with
        | Sentinel => (out, inr L)
        | Coords c =>
            match index preds (Z.of_nat i) with
            | inl e => (out, inl e)
            | inr pred =>
                let m := template_match_t2c U pred c 0%Z in
                if (N_match m >? 0)%Z then
                  match image_values beta m with
                  | inl e => (out, inl e)
                  | inr v =>
                      (out ++ (if (0 <? length (csv_duplicates m))%nat
                               then [(duplicate_fmt, [Int (Z.of_nat i)])] else []),
                       inr (append_all L v m))
                  end
                else
                  (out ++ [(skipping_fmt,
                            [Int (Z.of_nat i); Int (N_csv m); Int (N_templ m);
                             Int (N_match m)])],
                   inr L)
            end
        end
  end.
Proof.
  unfold image_step, bind at 1, lift at 1.
  destruct (index csvs (Z.of_nat i)) as [e | e]; [reflexivity|].
  destruct (len e <? 3)%nat; [reflexivity|].
  destruct e as [|c]; [reflexivity|].
  unfold bind at 1, lift at 1.
  destruct (index preds (Z.of_nat i)) as [e | pred]; [reflexivity|].
  cbv zeta.
  destruct (N_match (template_match_t2c U pred c 0) >? 0)%Z.
  - unfold bind at 1. rewrite image_metrics_pure.
    destruct (image_values beta (template_match_t2c U pred c 0)) as [e | v];
      [reflexivity|].
    destruct (0 <? length (csv_duplicates (template_match_t2c U pred c 0)))%nat;
      unfold bind, print, ret; [reflexivity|].
    rewrite app_nil_r. reflexivity.
  - reflexivity.
Qed.

Lemma Acc_app_empty_r (L : Acc.t) : Acc_app L Acc.empty = L.
Proof. destruct L. unfold Acc_app. simpl. rewrite !app_nil_r. reflexivity. Qed.

Lemma Acc_app_empty_l (L : Acc.t) : Acc_app Acc.empty L = L.
Proof. destruct L. reflexivity. Qed.

Lemma Acc_app_assoc (a b c : Acc.t) :
  Acc_app a (Acc_app b c) = Acc_app (Acc_app a b) c.
Proof. unfold Acc_app. simpl. rewrite !app_assoc. reflexivity. Qed.

Lemma append_all_app (L : Acc.t) v m :
  append_all L v m = Acc_app L (append_all Acc.empty v m).
Proof. destruct v as [[[[p r] f] fn] fn2]. reflexivity. Qed.

(** The effect of one image on the lists and on the log does not depend on
    what was collected and printed before. *)
Lemma image_step_frame (U : Utils) beta preds csvs (i : nat) (L : Acc.t) (out : log) :
  image_step U beta preds csvs i L out =
  (out ++ fst (image_step U beta preds csvs i Acc.empty []),
   match delta U beta preds csvs i with
   | inl e => inl e
   | inr D => inr (Acc_app L D)
   end).
Proof.
  unfold delta. rewrite !image_step_eq.
  destruct (index csvs (Z.of_nat i)) as [e | e]; simpl.
  { rewrite app_nil_r. reflexivity. }
  destruct (len e <? 3)%nat; simpl.
  { rewrite app_nil_r, Acc_app_empty_r. reflexivity. }
  destruct e as [|c]; simpl.
  { rewrite app_nil_r, Acc_app_empty_r. reflexivity. }
  destruct (index preds (Z.of_nat i)) as [e | pred]; simpl.
  { rewrite app_nil_r. reflexivity. }
  destruct (N_match (template_match_t2c U pred c 0) >? 0)%Z; simpl.
  - destruct (image_values beta (template_match_t2c U pred c 0)) as [e | v]; simpl.
    + rewrite app_nil_r. reflexivity.
    + rewrite (append_all_app L). reflexivity.
  - rewrite Acc_app_empty_r. reflexivity.
Qed.

(* ------------------------------------------------------------------ *)
(** ** The second loop as a whole                                       *)
(* ------------------------------------------------------------------ *)

Lemma loop_frame (U : Utils) beta preds csvs (order : list nat) (L : Acc.t) (out : log) :
  for_each (image_step U beta preds csvs) order L out =
  (out ++ fst (for_each (image_step U beta preds csvs) order Acc.empty []),
   match snd (for_each (image_step U beta preds csvs) order Acc.empty []) with
   | inl e => inl e
   | inr D => inr (Acc_app L D)
   end).
Proof.
  revert L out. induction order as [|i order IH]; intros L out; simpl.
  - unfold ret. simpl. rewrite app_nil_r, Acc_app_empty_r. reflexivity.
  - unfold bind.
    rewrite (image_step_frame U beta preds csvs i L out).
    rewrite (image_step_frame U beta preds csvs i Acc.empty []).
    destruct (delta U beta preds csvs i) as [e | D]; simpl.
    + reflexivity.
    + rewrite (IH (Acc_app L D)), (IH (Acc_app Acc.empty D)).
      simpl. rewrite app_assoc.
      destruct (snd (for_each (image_step U beta preds csvs) order Acc.empty []));
        [reflexivity|].
      rewrite Acc_app_empty_l, Acc_app_assoc. reflexivity.
Qed.

(** A completed loop has met no exception, and its lists are the
    concatenation, in processing order, of what each image adds. *)
Lemma loop_completed (U : Utils) beta preds csvs (order : list nat) (out out' : log) L :
  metrics_loop U beta preds csvs order out = (out', inr L) ->
  (forall i, In i order -> exists D, delta U beta preds csvs i = inr D) /\
  L = fold_right Acc_app Acc.empty (map (delta_or_empty U beta preds csvs) order).
Proof.
  unfold metrics_loop. revert out out' L.
  induction order as [|i order IH]; intros out out' L H.
  - simpl in H. inversion H. split; [intros i []|reflexivity].
  - simpl in H. apply bind_inr in H. destruct H as (L1 & out1 & H1 & H2).
    rewrite image_step_frame in H1.
    destruct (delta U beta preds csvs i) as [e | D] eqn:ED; [discriminate|].
    inversion H1; subst. clear H1.
    rewrite loop_frame in H2.
    destruct (snd (for_each (image_step U beta preds csvs) order Acc.empty []))
      as [e | D'] eqn:E'; [discriminate|].
    inversion H2; subst. clear H2.
    destruct (IH [] (fst (for_each (image_step U beta preds csvs) order Acc.empty []))
                 D') as [IH1 IH2].
    { rewrite <- E'. apply surjective_pairing. }
    split.
    + intros j [<- | Hj]; [exists D; exact ED | apply IH1, Hj].
    + simpl. unfold delta_or_empty at 1. rewrite ED, Acc_app_empty_l, <- IH2.
      reflexivity.
Qed.

(** A loop over images that raise no exception completes. *)
Lemma loop_completes (U : Utils) beta preds csvs (order : list nat) (out : log) :
  (forall i, In i order -> exists D, delta U beta preds csvs i = inr D) ->
  exists out' L, metrics_loop U beta preds csvs order out = (out', inr L).
Proof.
  unfold metrics_loop. intro H.
  rewrite loop_frame.
  assert (E : exists D, snd (for_each (image_step U beta preds csvs) order Acc.empty [])
                        = inr D).
  { induction order as [|i order IH]; simpl.
    - eexists. reflexivity.
    - unfold bind. rewrite image_step_frame.
      destruct (H i (or_introl eq_refl)) as [D ED]. rewrite ED.
      rewrite loop_frame.
      destruct IH as [D' ED']; [intros j Hj; apply H; right; exact Hj|].
      rewrite ED'. eexists. reflexivity. }
  destruct E as [D ED]. rewrite ED. eexists. eexists. reflexivity.
Qed.

Lemma included_cons (U : Utils) preds csvs (i : nat) (order : list nat) :
  included U preds csvs (i :: order) =
  included U preds csvs [i] ++ included U preds csvs order.
Proof.
  unfold included. simpl. rewrite app_nil_r, filter_app. reflexivity.
Qed.

(** What one image adds, read off the matcher's result. *)
Lemma delta_entry (U : Utils) beta preds csvs (i : nat) D :
  delta U beta preds csvs i = inr D ->
  (forall m, In m (included U preds csvs [i]) -> exists v, image_values beta m = inr v) /\
  D = fold_right Acc_app Acc.empty (map (entry beta) (included U preds csvs [i])).
Proof.
  unfold delta, included, match_of. rewrite image_step_eq. simpl.
  destruct (index csvs (Z.of_nat i)) as [e | e]; [discriminate|].
  destruct e as [|c]; simpl.
  { intro H. inversion H. split; [intros m []|reflexivity]. }
  destruct (length c <? 3)%nat; simpl.
  { destruct (index preds (Z.of_nat i)); intro H; inversion H;
      (split; [intros m []|reflexivity]). }
  destruct (index preds (Z.of_nat i)) as [e | pred]; [discriminate|]. simpl.
  destruct (N_match (template_match_t2c U pred c 0) >? 0)%Z; simpl.
  - destruct (image_values beta (template_match_t2c U pred c 0)) as [e | v] eqn:E;
      [discriminate|].
    intro H. inversion H. split.
    + intros m [<- | []]. exists v. exact E.
    + unfold entry. rewrite E, Acc_app_empty_r. reflexivity.
  - intro H. inversion H. split; [intros m []|reflexivity].
Qed.

Lemma fold_Acc_app_app (a b : list Acc.t) :
  fold_right Acc_app Acc.empty (a ++ b) =
  Acc_app (fold_right Acc_app Acc.empty a) (fold_right Acc_app Acc.empty b).
Proof.
  induction a as [|x a IH]; simpl.
  - rewrite Acc_app_empty_l. reflexivity.
  - rewrite IH, Acc_app_assoc. reflexivity.
Qed.

(** The lists of a completed loop are the entries of the included images,
    in processing order, and each of them was computed without exception. *)
Lemma loop_entries (U : Utils) beta preds csvs (order : list nat) (out out' : log) L :
  metrics_loop U beta preds csvs order out = (out', inr L) ->
  (forall m, In m (included U preds csvs order) ->
             exists v, image_values beta m = inr v) /\
  L = fold_right Acc_app Acc.empty (map (entry beta) (included U preds csvs order)).
Proof.
  intro H. apply loop_completed in H. destruct H as [Hok ->].
  induction order as [|i order IH].
  - split; [intros m []|reflexivity].
  - destruct IH as [IH1 IH2]; [intros j Hj; apply Hok; right; exact Hj|].
    destruct (Hok i (or_introl eq_refl)) as [D ED].
    destruct (delta_entry _ _ _ _ _ _ ED) as [HD1 HD2].
    rewrite included_cons. split.
    + intros m Hm. apply in_app_or in Hm. destruct Hm; auto.
    + simpl. rewrite IH2, map_app, fold_Acc_app_app.
      unfold delta_or_empty at 1. rewrite ED, HD2. reflexivity.
Qed.

(** A field of a concatenation of records. *)
Lemma fold_Acc_app_field {X} (f : Acc.t -> list X) (Ds : list Acc.t) :
  (forall a b, f (Acc_app a b) = f a ++ f b) -> f Acc.empty = [] ->
  f (fold_right Acc_app Acc.empty Ds) = flat_map f Ds.
Proof.
  intros Hf He. induction Ds as [|D Ds IH]; simpl; [exact He|].
  rewrite Hf, IH. reflexivity.
Qed.

Lemma flat_map_singleton {X Y} (f : X -> list Y) (g : X -> Y) (l : list X) :
  (forall a, In a l -> f a = [g a]) -> flat_map f l = map g l.
Proof.
  induction l as [|a l IH]; intro H; simpl; [reflexivity|].
  rewrite (H a (or_introl eq_refl)), IH; [reflexivity|].
  intros b Hb. apply H. right. exact Hb.
Qed.

(** A field of the lists of a completed loop, given what an entry puts
    into that field. *)
Lemma loop_field {X} (f : Acc.t -> list X) (g : MatchResult -> X)
    (U : Utils) beta preds csvs (order : list nat) (out out' : log) L :
  (forall a b, f (Acc_app a b) = f a ++ f b) -> f Acc.empty = [] ->
  (forall m v, image_values beta m = inr v -> f (append_all Acc.empty v m) = [g m]) ->
  metrics_loop U beta preds csvs order out = (out', inr L) ->
  f L = map g (included U preds csvs order).
Proof.
  intros Hf He Hg H. apply loop_entries in H. destruct H as [Hv ->].
  rewrite (fold_Acc_app_field f _ Hf He), flat_map_concat_map, map_map,
    <- flat_map_concat_map.
  apply flat_map_singleton. intros m Hm.
  destruct (Hv m Hm) as [v Ev]. unfold entry. rewrite Ev. apply Hg, Ev.
Qed.

(* ------------------------------------------------------------------ *)
(** ** Per-image metrics                                                *)
(* ------------------------------------------------------------------ *)

Lemma included_formulas (U : Utils) beta preds csvs (order : list nat)
    (out out' : log) (L : Acc.t) :
  metrics_loop U beta preds csvs order out = (out', inr L) ->
  let p m := inject_Z (N_match m) / inject_Z (N_match m + (N_templ m - N_match m)) in
  let r m := inject_Z (N_match m) / inject_Z (N_csv m) in
  Acc.precision L = map p (included U preds csvs order) /\
  Acc.recall L = map r (included U preds csvs order) /\
  Acc.fscore L =
    map (fun m => inject_Z (1 + beta ^ 2) * (r m * p m) / (p m * inject_Z (beta ^ 2) + r m))
        (included U preds csvs order).
Proof.
  intros H p r. repeat split.
  - apply (loop_field Acc.precision p U beta preds csvs order out out' L);
      [reflexivity | reflexivity | | exact H].
    intros m v Hv. rewrite (image_values_formulas _ _ _ Hv). reflexivity.
  - apply (loop_field Acc.recall r U beta preds csvs order out out' L);
      [reflexivity | reflexivity | | exact H].
    intros m v Hv. rewrite (image_values_formulas _ _ _ Hv). reflexivity.
  - apply (loop_field Acc.fscore _ U beta preds csvs order out out' L);
      [reflexivity | reflexivity | | exact H].
    intros m v Hv. rewrite (image_values_formulas _ _ _ Hv). reflexivity.
Qed.

(** C1. Over the images included in the aggregate (at least three usable
    craters and [N_match > 0]), the precision list holds
    [N_match/(N_match+(N_templ-N_match))], the recall list [N_match/N_csv]
    and the fscore list [(1+beta^2)(recall*precision)/(precision*beta^2+recall)],
    each from that image's matcher counts; [beta] defaults to 1. *)
Theorem precision_recall_fscore (U : Utils) beta preds csvs (order : list nat)
    (out out' : log) (L : Acc.t) :
  metrics_loop U beta preds csvs order out = (out', inr L) ->
  let p m := inject_Z (N_match m) / inject_Z (N_match m + (N_templ m - N_match m)) in
  let r m := inject_Z (N_match m) / inject_Z (N_csv m) in
  Acc.precision L = map p (included U preds csvs order) /\
  Acc.recall L = map r (included U preds csvs order) /\
  Acc.fscore L =
    map (fun m => inject_Z (1 + beta ^ 2) * (r m * p m) / (p m * inject_Z (beta ^ 2) + r m))
        (included U preds csvs order) /\
  beta_default = 1%Z.
Proof.
  intros H p r.
  destruct (included_formulas U beta preds csvs order out out' L H)
    as (Hp & Hr & Hf).
  repeat split; assumption.
Qed.

Lemma precision_recall_fscore_witness :
  metrics_loop Ex.utils 1 Ex.X6 Ex.csvs6 (seq 0 6) [] = (fst Ex.loop6, inr Ex.lists6) /\
  Acc.precision Ex.lists6 = [4 # 5; 2 # 3; 3 # 3; 1 # 4] /\
  Acc.recall Ex.lists6 = [4 # 5; 2 # 5; 3 # 3; 1 # 5].
Proof.
  assert (H : metrics_loop Ex.utils 1 Ex.X6 Ex.csvs6 (seq 0 6) []
              = (fst Ex.loop6, inr Ex.lists6)) by (vm_compute; reflexivity).
  split; [exact H|].
  destruct (precision_recall_fscore Ex.utils 1 Ex.X6 Ex.csvs6 (seq 0 6) []
              (fst Ex.loop6) Ex.lists6 H) as (Hp & Hr & _).
  split; [rewrite Hp | rewrite Hr]; vm_compute; reflexivity.
Defined.

(** C9. Over the included images, the frac_new list holds
    [(N_templ - N_match)/N_templ] and the frac_new2 list
    [(N_templ - N_match)/N_csv], each from that image's matcher counts. *)
Theorem frac_new_formulas (U : Utils) beta preds csvs (order : list nat)
    (out out' : log) (L : Acc.t) :
  metrics_loop U beta preds csvs order out = (out', inr L) ->
  Acc.frac_new L =
    map (fun m => inject_Z (N_templ m - N_match m) / inject_Z (N_templ m))
        (included U preds csvs order) /\
  Acc.frac_new2 L =
    map (fun m => inject_Z (N_templ m - N_match m) / inject_Z (N_csv m))
        (included U preds csvs order).
Proof.
  intros H. split.
  - apply (loop_field Acc.frac_new _ U beta preds csvs order out out' L);
      [reflexivity | reflexivity | | exact H].
    intros m v Hv. rewrite (image_values_formulas _ _ _ Hv). reflexivity.
  - apply (loop_field Acc.frac_new2 _ U beta preds csvs order out out' L);
      [reflexivity | reflexivity | | exact H].
    intros m v Hv. rewrite (image_values_formulas _ _ _ Hv). reflexivity.
Qed.

Lemma frac_new_formulas_witness :
  metrics_loop Ex.utils 1 Ex.X6 Ex.csvs6 (seq 0 6) [] = (fst Ex.loop6, inr Ex.lists6) /\
  Acc.frac_new Ex.lists6 = [1 # 5; 1 # 3; 0 # 3; 3 # 4] /\
  Acc.frac_new2 Ex.lists6 = [1 # 5; 1 # 5; 0 # 3; 3 # 5].
Proof.
  assert (H : metrics_loop Ex.utils 1 Ex.X6 Ex.csvs6 (seq 0 6) []
              = (fst Ex.loop6, inr Ex.lists6)) by (vm_compute; reflexivity).
  split; [exact H|].
  destruct (frac_new_formulas Ex.utils 1 Ex.X6 Ex.csvs6 (seq 0 6) []
              (fst Ex.loop6) Ex.lists6 H) as (Hn & Hn2).
  split; [rewrite Hn | rewrite Hn2]; vm_compute; reflexivity.
Defined.

(* ------------------------------------------------------------------ *)
(** ** Division by zero                                                 *)
(* ------------------------------------------------------------------ *)

Lemma inject_Z_nonzero (z : Z) : z <> 0%Z -> ~ inject_Z z == 0.
Proof.
  intros Hz H. apply Hz. unfold Qeq in H. simpl in H. lia.
Qed.

Lemma inject_Z_pos (z : Z) : (0 < z)%Z -> 0 < inject_Z z.
Proof. intro H. change 0 with (inject_Z 0). rewrite <- Zlt_Qlt. exact H. Qed.

Lemma Qdiv_pos (a b : Q) : 0 < a -> 0 < b -> 0 < a / b.
Proof.
  intros Ha Hb. apply Qlt_shift_div_l; [exact Hb|].
  rewrite Qmult_0_l. exact Ha.
Qed.

Lemma fdiv_ok (a b : Q) (out : log) :
  ~ b == 0 -> fdiv a b out = (out, inr (a / b)).
Proof.
  intro Hb. destruct (fdiv_cases a b out) as [[E _] | [_ E]]; [contradiction | exact E].
Qed.

(** C5. When [N_match > 0], [N_match <= N_csv] and [N_match <= N_templ],
    each of the divisors met in computing precision, recall, fscore,
    frac_new and frac_new2 is non-zero, and the computation raises no
    exception. *)
Theorem no_division_by_zero (beta : Z) (m : MatchResult) (out : log) :
  (0 < N_match m)%Z -> (N_match m <= N_csv m)%Z -> (N_match m <= N_templ m)%Z ->
  let p := inject_Z (N_match m) / inject_Z (N_match m + (N_templ m - N_match m)) in
  let r := inject_Z (N_match m) / inject_Z (N_csv m) in
  ~ inject_Z (N_match m + (N_templ m - N_match m)) == 0 /\
  ~ inject_Z (N_csv m) == 0 /\
  ~ p * inject_Z (beta ^ 2) + r == 0 /\
  ~ inject_Z (N_templ m) == 0 /\
  exists v, image_metrics beta m out = (out, inr v).
Proof.
  intros Hm Hc Ht p r.
  assert (D1 : ~ inject_Z (N_match m + (N_templ m - N_match m)) == 0)
    by (apply inject_Z_nonzero; lia).
  assert (D2 : ~ inject_Z (N_csv m) == 0) by (apply inject_Z_nonzero; lia).
  assert (D4 : ~ inject_Z (N_templ m) == 0) by (apply inject_Z_nonzero; lia).
  assert (Hp : 0 < p).
  { apply Qdiv_pos; apply inject_Z_pos; lia. }
  assert (Hr : 0 < r).
  { apply Qdiv_pos; apply inject_Z_pos; lia. }
  assert (Hb : 0 <= inject_Z (beta ^ 2)).
  { change 0 with (inject_Z 0). rewrite <- Zle_Qle. apply Z.pow_even_nonneg.
    exists 1%Z. reflexivity. }
  assert (D3 : ~ p * inject_Z (beta ^ 2) + r == 0).
  { intro E.
    assert (0 <= p * inject_Z (beta ^ 2))
      by (apply Qmult_le_0_compat; [apply Qlt_le_weak, Hp | exact Hb]).
    lra. }
  repeat split; try assumption.
  unfold image_metrics, bind.
  rewrite (fdiv_ok _ _ out D1), (fdiv_ok _ _ out D2).
  fold p r. rewrite (fdiv_ok _ _ out D3), (fdiv_ok _ _ out D4), (fdiv_ok _ _ out D2).
  eexists. reflexivity.
Qed.

Lemma no_division_by_zero_witness :
  exists v, image_metrics 1 (mkMatch 4 5 5 10 [] [] [] []) [] = ([], inr v).
Proof.
  apply (no_division_by_zero 1 (mkMatch 4 5 5 10 [] [] [] []) []); simpl; lia.
Defined.

(* ------------------------------------------------------------------ *)
(** ** The first loop, and the two kinds of skipped image               *)
(* ------------------------------------------------------------------ *)

Lemma silent_read_csv (U : Utils) craters dim (i : nat) :
  silent (read_csv U craters dim i).
Proof.
  unfold read_csv. destruct (craters (get_id U i)) as [csv|].
  - destruct (length (csv_filter dim csv) <? 3)%nat; apply silent_ret.
  - apply silent_raise.
Qed.

(** The entry the first loop stores for image [i]. *)
Lemma read_csv_entry (U : Utils) craters dim (i : nat) (csv : list Row) (out : log) :
  craters (get_id U i) = Some csv ->
  read_csv U craters dim i out =
  (out, inr (if (length (csv_filter dim csv) <? 3)%nat then Sentinel
             else Coords (csv_coords (csv_filter dim csv)))).
Proof.
  intro H. unfold read_csv. rewrite H.
  destruct (length (csv_filter dim csv) <? 3)%nat; reflexivity.
Qed.

Lemma first_loop_nth (U : Utils) craters dim (n s : nat) (out out' : log) csvs :
  collect (read_csv U craters dim) (seq s n) out = (out', inr csvs) ->
  out' = out /\
  forall i csv, (i < n)%nat -> craters (get_id U (s + i)) = Some csv ->
    nth_error csvs i =
    Some (if (length (csv_filter dim csv) <? 3)%nat then Sentinel
          else Coords (csv_coords (csv_filter dim csv))).
Proof.
  revert s out out' csvs. induction n as [|n IH]; intros s out out' csvs H.
  - simpl in H. inversion H. split; [reflexivity | intros; lia].
  - simpl in H. apply bind_inr in H. destruct H as (e & out1 & H1 & H2).
    apply bind_inr in H2. destruct H2 as (bs & out2 & H2 & H3).
    inversion H3; subst. clear H3.
    destruct (IH _ _ _ _ H2) as [-> IHn].
    assert (E1 : out1 = out).
    { rewrite (silent_read_csv U craters dim s out) in H1. inversion H1. reflexivity. }
    split; [exact E1|].
    intros i csv Hi Hc. destruct i as [|i]; simpl.
    + rewrite Nat.add_0_r in Hc. rewrite (read_csv_entry _ _ _ _ _ _ Hc) in H1.
      inversion H1. reflexivity.
    + apply IHn; [lia|]. replace (S s + i)%nat with (s + S i)%nat by lia. exact Hc.
Qed.

Lemma first_loop_index (U : Utils) craters dim (n : nat) (out out' : log) csvs i csv :
  collect (read_csv U craters dim) (seq 0 n) out = (out', inr csvs) ->
  (i < n)%nat -> craters (get_id U i) = Some csv ->
  index csvs (Z.of_nat i) =
  inr (if (length (csv_filter dim csv) <? 3)%nat then Sentinel
       else Coords (csv_coords (csv_filter dim csv))).
Proof.
  intros H Hi Hc. destruct (first_loop_nth _ _ _ _ _ _ _ _ H) as [_ Hn].
  rewrite index_nat, (Hn i csv Hi Hc). reflexivity.
Qed.

Lemma length_csv_coords (csv : list Row) : length (csv_coords csv) = length csv.
Proof. apply length_map. Qed.

(** C3. An image whose filtered table has fewer than three craters raises
    nothing: the first loop stores the placeholder for it, and the second
    loop passes over it without printing and without appending to any of
    the nine lists. *)
Theorem few_craters_excluded (U : Utils) craters dim beta preds (n : nat)
    (out0 out1 : log) csvs (i : nat) (csv : list Row) :
  collect (read_csv U craters dim) (seq 0 n) out0 = (out1, inr csvs) ->
  (i < n)%nat -> craters (get_id U i) = Some csv ->
  (length (csv_filter dim csv) < 3)%nat ->
  index csvs (Z.of_nat i) = inr Sentinel /\
  (forall L out, image_step U beta preds csvs i L out = (out, inr L)) /\
  included U preds csvs [i] = [].
Proof.
  intros H Hi Hc Hlen.
  pose proof (first_loop_index _ _ _ _ _ _ _ _ _ H Hi Hc) as E.
  apply Nat.ltb_lt in Hlen. rewrite Hlen in E.
  split; [exact E|]. split.
  - intros L out. rewrite image_step_eq, E. reflexivity.
  - unfold included, match_of. simpl. rewrite E. reflexivity.
Qed.

Lemma few_craters_excluded_witness :
  index Ex.csvs6 1 = inr Sentinel /\
  image_step Ex.utils 1 Ex.X6 Ex.csvs6 1 Ex.lists6 [("", [])] = ([("", [])], inr Ex.lists6).
Proof.
  destruct (few_craters_excluded Ex.utils Ex.craters 256 1 Ex.X6 6 [] [] Ex.csvs6 1
              Ex.table1) as (H1 & H2 & _);
    [vm_compute; reflexivity | lia | reflexivity | vm_compute; lia |].
  split; [exact H1 | apply H2].
Defined.

(** C4. An image with at least three usable craters and [N_match = 0]
    raises nothing and appends to none of the lists; the second loop prints
    for it one line, the skipping notice with the image number and the
    counts [N_csv], [N_templ] and [N_match]. *)
Theorem zero_match_skipped (U : Utils) craters dim beta preds (n : nat)
    (out0 out1 : log) csvs (i : nat) (csv : list Row) (pred : array2) :
  collect (read_csv U craters dim) (seq 0 n) out0 = (out1, inr csvs) ->
  (i < n)%nat -> craters (get_id U i) = Some csv ->
  (3 <= length (csv_filter dim csv))%nat ->
  index preds (Z.of_nat i) = inr pred ->
  let m := template_match_t2c U pred (csv_coords (csv_filter dim csv)) 0%Z in
  N_match m = 0%Z ->
  (forall L out,
     image_step U beta preds csvs i L out =
     (out ++ [(skipping_fmt,
               [Int (Z.of_nat i); Int (N_csv m); Int (N_templ m); Int (N_match m)])],
      inr L)) /\
  included U preds csvs [i] = [].
Proof.
  intros H Hi Hc Hlen Hp m Hm.
  pose proof (first_loop_index _ _ _ _ _ _ _ _ _ H Hi Hc) as E.
  assert (Hlt : (length (csv_filter dim csv) <? 3)%nat = false)
    by (apply Nat.ltb_ge; exact Hlen).
  rewrite Hlt in E. split.
  - intros L out. rewrite image_step_eq, E. simpl.
    rewrite length_csv_coords, Hlt, Hp. fold m. cbv zeta. rewrite Hm. reflexivity.
  - unfold included, match_of. simpl. rewrite E, Hp, length_csv_coords, Hlt.
    fold m. simpl. rewrite Hm. reflexivity.
Qed.

Lemma zero_match_skipped_witness :
  image_step Ex.utils 1 Ex.X6 Ex.csvs6 2 Ex.lists6 [("", [])] =
  ([("", [])] ++ [(skipping_fmt, [Int 2; Int 3; Int 2; Int 0])], inr Ex.lists6).
Proof.
  destruct (zero_match_skipped Ex.utils Ex.craters 256 1 Ex.X6 6 [] [] Ex.csvs6 2
              Ex.table2 Ex.img2) as (H & _);
    [vm_compute; reflexivity | lia | reflexivity | vm_compute; lia
    | reflexivity | reflexivity |].
  apply H.
Defined.

(* ------------------------------------------------------------------ *)
(** ** numpy reductions do not depend on the order of the entries       *)
(* ------------------------------------------------------------------ *)

Lemma sum_perm (l l' : list Q) : Permutation l l' -> Np.sum l == Np.sum l'.
Proof.
  induction 1 as [|x l l' _ IH|x y l|l l' l'' _ IH1 _ IH2]; simpl.
  - reflexivity.
  - rewrite IH. reflexivity.
  - ring.
  - rewrite IH1. exact IH2.
Qed.

Lemma sum_map_ext (f g : Q -> Q) (l : list Q) :
  (forall a, f a == g a) -> Np.sum (map f l) == Np.sum (map g l).
Proof.
  intro H. induction l as [|a l IH]; simpl; [reflexivity|].
  rewrite IH, (H a). reflexivity.
Qed.

Lemma avg_perm (l l' : list Q) : Permutation l l' -> Np.avg l == Np.avg l'.
Proof.
  intro H. unfold Np.avg.
  rewrite (sum_perm _ _ H), (Permutation_length H). reflexivity.
Qed.

Lemma avg_map_ext (f g : Q -> Q) (l : list Q) :
  (forall a, f a == g a) -> Np.avg (map f l) == Np.avg (map g l).
Proof.
  intro H. unfold Np.avg. rewrite !length_map, (sum_map_ext f g l H). reflexivity.
Qed.

Lemma var_perm (l l' : list Q) : Permutation l l' -> Np.var l == Np.var l'.
Proof.
  intro H. unfold Np.var.
  pose proof (avg_perm _ _ H) as E.
  rewrite (avg_map_ext (fun a => (a - Np.avg l) * (a - Np.avg l))
                       (fun a => (a - Np.avg l') * (a - Np.avg l')) l).
  - apply avg_perm, Permutation_map, H.
  - intro a. rewrite E. reflexivity.
Qed.

Lemma fold_max_upper (l : list Q) (a : Q) :
  forall x, In x (a :: l) -> x <= fold_left Qmax l a.
Proof.
  revert a. induction l as [|b l IH]; intros a x Hx; simpl.
  - destruct Hx as [E | []]. subst x. apply Qle_refl.
  - destruct Hx as [E | [E | Hx]]; [subst x | subst x |].
    + apply Qle_trans with (Qmax a b); [apply Q.le_max_l|].
      apply IH. left. reflexivity.
    + apply Qle_trans with (Qmax a b); [apply Q.le_max_r|].
      apply IH. left. reflexivity.
    + apply IH. right. exact Hx.
Qed.

Lemma fold_max_attained (l : list Q) (a : Q) :
  exists x, In x (a :: l) /\ fold_left Qmax l a == x.
Proof.
  revert a. induction l as [|b l IH]; intro a; simpl.
  - exists a. split; [left; reflexivity | reflexivity].
  - destruct (IH (Qmax a b)) as (x & [Hx | Hx] & E).
    + destruct (Q.max_spec a b) as [[_ Em] | [_ Em]].
      * exists b. split; [right; left; reflexivity|]. rewrite E, <- Hx. exact Em.
      * exists a. split; [left; reflexivity|]. rewrite E, <- Hx. exact Em.
    + exists x. split; [right; right; exact Hx | exact E].
Qed.

Lemma fold_max_perm (l l' : list Q) (a a' : Q) :
  Permutation (a :: l) (a' :: l') -> fold_left Qmax l a == fold_left Qmax l' a'.
Proof.
  intro H. apply Qle_antisym.
  - destruct (fold_max_attained l a) as (x & Hx & ->).
    apply fold_max_upper. apply (Permutation_in _ H). exact Hx.
  - destruct (fold_max_attained l' a') as (x & Hx & ->).
    apply fold_max_upper. apply (Permutation_in _ (Permutation_sym H)). exact Hx.
Qed.

Lemma reduce_perm (r : reduction) (l l' : list Q) :
  Permutation l l' -> outcome_eq (reduce r l) (reduce r l').
Proof.
  intro H. destruct r; simpl.
  - destruct l as [|a l], l' as [|a' l']; simpl; trivial.
    + apply Permutation_nil_cons in H. exact H.
    + apply Permutation_sym, Permutation_nil_cons in H. exact H.
    + apply avg_perm, H.
  - destruct l as [|a l], l' as [|a' l']; simpl; trivial.
    + apply Permutation_nil_cons in H. exact H.
    + apply Permutation_sym, Permutation_nil_cons in H. exact H.
    + apply var_perm, H.
  - destruct l as [|a l], l' as [|a' l']; simpl; trivial.
    + apply Permutation_nil_cons in H. exact H.
    + apply Permutation_sym, Permutation_nil_cons in H. exact H.
    + apply fold_max_perm, H.
Qed.

Lemma rectangular_iff (rows : list (list Q)) :
  Np.rectangular rows = true <->
  forall r r', In r rows -> In r' rows -> length r = length r'.
Proof.
  destruct rows as [|r0 rows]; simpl.
  - split; [intros _ r r' [] | reflexivity].
  - rewrite forallb_forall. split.
    + intros H r r' Hr Hr'.
      assert (E : forall x, r0 = x \/ In x rows -> length x = length r0).
      { intros x [<- | Hx]; [reflexivity|]. apply Nat.eqb_eq, H, Hx. }
      rewrite (E r Hr), (E r' Hr'). reflexivity.
    + intros H x Hx. apply Nat.eqb_eq. apply H; [right; exact Hx | left; reflexivity].
Qed.

Lemma rectangular_perm (rows rows' : list (list Q)) :
  Permutation rows rows' -> Np.rectangular rows = Np.rectangular rows'.
Proof.
  intro H. apply eq_true_iff_eq. rewrite !rectangular_iff.
  split; intros Hr r r' Hi Hi'; apply Hr;
    first [ apply (Permutation_in _ H); assumption
          | apply (Permutation_in _ (Permutation_sym H)); assumption ].
Qed.

Lemma concat_perm {X} (rows rows' : list (list X)) :
  Permutation rows rows' -> Permutation (concat rows) (concat rows').
Proof.
  induction 1 as [|x l l' _ IH|x y l|l l' l'' _ IH1 _ IH2]; simpl.
  - apply Permutation_refl.
  - apply Permutation_app_head, IH.
  - rewrite !app_assoc. apply Permutation_app_tail, Permutation_app_comm.
  - exact (Permutation_trans IH1 IH2).
Qed.

Lemma flatten_perm (rows rows' : list (list Q)) :
  Permutation rows rows' -> same_entries (Np.flatten rows) (Np.flatten rows').
Proof.
  intro H. unfold Np.flatten. rewrite (rectangular_perm _ _ H).
  destruct (Np.rectangular rows'); simpl; [apply concat_perm, H | reflexivity].
Qed.

Lemma flat_map_perm {X Y} (f : X -> list Y) (l l' : list X) :
  Permutation l l' -> Permutation (flat_map f l) (flat_map f l').
Proof.
  intro H. rewrite !flat_map_concat_map. apply concat_perm, Permutation_map, H.
Qed.

Lemma filter_perm {X} (f : X -> bool) (l l' : list X) :
  Permutation l l' -> Permutation (filter f l) (filter f l').
Proof.
  induction 1 as [|x l l' _ IH|x y l|l l' l'' _ IH1 _ IH2]; simpl.
  - apply Permutation_refl.
  - destruct (f x); [apply perm_skip|]; exact IH.
  - destruct (f x), (f y); try apply Permutation_refl. apply perm_swap.
  - exact (Permutation_trans IH1 IH2).
Qed.

Lemma included_perm (U : Utils) preds csvs (order order' : list nat) :
  Permutation order order' ->
  Permutation (included U preds csvs order) (included U preds csvs order').
Proof.
  intro H. unfold included. apply filter_perm, flat_map_perm, H.
Qed.

(* ------------------------------------------------------------------ *)
(** ** The aggregation does not depend on the processing order          *)
(* ------------------------------------------------------------------ *)

Lemma field_perm {X} (f : Acc.t -> list X) (beta : Z) (ms ms' : list MatchResult) :
  (forall a b, f (Acc_app a b) = f a ++ f b) -> f Acc.empty = [] ->
  Permutation ms ms' ->
  Permutation (f (fold_right Acc_app Acc.empty (map (entry beta) ms)))
              (f (fold_right Acc_app Acc.empty (map (entry beta) ms'))).
Proof.
  intros Hf He H. rewrite !(fold_Acc_app_field f _ Hf He).
  apply flat_map_perm, Permutation_map, H.
Qed.

Lemma series_perm (beta : Z) (ms ms' : list MatchResult) (s : series) :
  Permutation ms ms' ->
  same_entries
    (series_of (fold_right Acc_app Acc.empty (map (entry beta) ms)) s)
    (series_of (fold_right Acc_app Acc.empty (map (entry beta) ms')) s).
Proof.
  intro H. destruct s; simpl;
    try (apply flatten_perm);
    apply (field_perm _ beta ms ms'); trivial.
Qed.

(** C8. Processing the images in any other order leaves every aggregate
    unchanged: when the loop completes in one order it completes in every
    permutation of it, and each mean, standard deviation and maximum taken
    over each of the nine lists has the same value (in exact arithmetic). *)
Theorem order_independent (U : Utils) beta preds csvs (order order' : list nat)
    (out out1 : log) (L : Acc.t) :
  Permutation order order' ->
  metrics_loop U beta preds csvs order out = (out1, inr L) ->
  exists out2 L',
    metrics_loop U beta preds csvs order' out = (out2, inr L') /\
    forall r s, outcome_eq (eval_arg L (Stat r s)) (eval_arg L' (Stat r s)).
Proof.
  intros HP H.
  destruct (loop_completed _ _ _ _ _ _ _ _ H) as [Hok _].
  destruct (loop_completes U beta preds csvs order' out) as (out2 & L' & H').
  { intros i Hi. apply Hok. apply (Permutation_in _ (Permutation_sym HP)), Hi. }
  exists out2, L'. split; [exact H'|].
  apply loop_entries in H. destruct H as [_ ->].
  apply loop_entries in H'. destruct H' as [_ ->].
  intros r s. simpl.
  pose proof (series_perm beta _ _ s (included_perm U preds csvs _ _ HP)) as E.
  destruct (series_of _ s) as [e | l], (series_of _ s) as [e' | l']; simpl in E;
    try contradiction.
  - exact E.
  - apply reduce_perm, E.
Qed.

Lemma order_independent_witness :
  exists out2 L',
    metrics_loop Ex.utils 1 Ex.X6 Ex.csvs6 [5; 3; 1; 0; 4; 2]%nat [] = (out2, inr L') /\
    forall r s, outcome_eq (eval_arg Ex.lists6 (Stat r s)) (eval_arg L' (Stat r s)).
Proof.
  apply (order_independent Ex.utils 1 Ex.X6 Ex.csvs6 (seq 0 6) [5; 3; 1; 0; 4; 2]%nat
           [] (fst Ex.loop6) Ex.lists6).
  - simpl.
    apply (perm_trans (l' := [5; 0; 1; 2; 3; 4]%nat)).
    + apply Permutation_sym. apply (Permutation_cons_app [0; 1; 2; 3; 4]%nat []).
      simpl. apply Permutation_refl.
    + apply perm_skip.
      apply (perm_trans (l' := [3; 0; 1; 2; 4]%nat)).
      * apply Permutation_sym. apply (Permutation_cons_app [0; 1; 2]%nat [4]%nat).
        apply Permutation_refl.
      * apply perm_skip.
        apply (perm_trans (l' := [1; 0; 2; 4]%nat)); [apply perm_swap|].
        apply perm_skip, perm_skip, perm_swap.
  - vm_compute. reflexivity.
Defined.

(* ------------------------------------------------------------------ *)
(** ** The summary                                                      *)
(* ------------------------------------------------------------------ *)

(** The first summary statement prints the mean and the standard deviation
    of recall; the second applies [/] to two strings. *)
Lemma summary_eq (beta : Z) (L : Acc.t) (out : log) :
  summary beta L out =
  (out ++ [(recall_fmt, [Np.mean (Acc.recall L); Np.std (Acc.recall L)])],
   inl TypeError).
Proof. reflexivity. Qed.

(** [get_metrics] once its two loops have completed. *)
Lemma get_metrics_eq (U : Utils) data craters dim model beta
    (out0 out1 out2 : log) csvs (L : Acc.t) :
  collect (read_csv U craters dim) (seq 0 (length (fst data))) out0 = (out1, inr csvs) ->
  metrics_loop U beta (predict model (fst data)) csvs (seq 0 (length (fst data)))
               ((out1 ++ [("", [])]) ++ [(banner_fmt, [])]) = (out2, inr L) ->
  get_metrics U data craters dim model beta out0 =
  (if (3 <? length (Acc.recall L))%nat then summary beta L else ret tt)
    (out2 ++ [(xe_fmt, [Float (evaluate model (fst data) (snd data))])]).
Proof.
  intros H1 H2. unfold get_metrics. cbv zeta.
  unfold bind at 1. rewrite H1.
  unfold bind at 1, print at 1. unfold bind at 1, print at 1.
  unfold bind at 1. rewrite H2.
  unfold bind at 1, print at 1. reflexivity.
Qed.

Lemma recall_length (U : Utils) beta preds csvs (order : list nat) (out out' : log) L :
  metrics_loop U beta preds csvs order out = (out', inr L) ->
  length (Acc.recall L) = length (included U preds csvs order).
Proof.
  intro H.
  destruct (included_formulas U beta preds csvs order out out' L H)
    as (_ & -> & _).
  apply length_map.
Qed.

(** C7, as the code has it. Once the two loops have completed, the summary
    is entered exactly when more than 3 images were included: then the line
    after the XE score is the mean and standard deviation of recall; with 3
    or fewer included images the XE score is the last line printed, nothing
    tells that the summary was left out, and [get_metrics] returns. *)
Theorem summary_gate (U : Utils) data craters dim model beta
    (out0 out1 out2 : log) csvs (L : Acc.t) :
  collect (read_csv U craters dim) (seq 0 (length (fst data))) out0 = (out1, inr csvs) ->
  metrics_loop U beta (predict model (fst data)) csvs (seq 0 (length (fst data)))
               ((out1 ++ [("", [])]) ++ [(banner_fmt, [])]) = (out2, inr L) ->
  let q := length (included U (predict model (fst data)) csvs
                            (seq 0 (length (fst data)))) in
  let xe := (xe_fmt, [Float (evaluate model (fst data) (snd data))]) in
  ((3 < q)%nat ->
   exists rest,
     fst (get_metrics U data craters dim model beta out0) =
     out2 ++ [xe; (recall_fmt, [Np.mean (Acc.recall L); Np.std (Acc.recall L)])] ++ rest) /\
  ((q <= 3)%nat ->
   get_metrics U data craters dim model beta out0 = (out2 ++ [xe], inr tt)).
Proof.
  intros H1 H2 q xe.
  rewrite (get_metrics_eq _ _ _ _ _ _ _ _ _ _ _ H1 H2).
  rewrite (recall_length _ _ _ _ _ _ _ _ H2). fold q.
  split; intro Hq.
  - apply Nat.ltb_lt in Hq. rewrite Hq, summary_eq. exists []. simpl.
    rewrite <- app_assoc. reflexivity.
  - apply Nat.ltb_ge in Hq. rewrite Hq. reflexivity.
Qed.

Lemma summary_gate_witness :
  get_metrics Ex.utils Ex.data3 Ex.craters 256 Ex.model 1 [] =
  ([("", []); (banner_fmt, []); (skipping_fmt, [Int 2; Int 3; Int 2; Int 0])]
   ++ [(xe_fmt, [Float (1 # 10)])], inr tt).
Proof.
  refine (proj2 (summary_gate Ex.utils Ex.data3 Ex.craters 256 Ex.model 1
                   [] [] _ Ex.csvs3
                   (Acc.mk [4 # 5] [4 # 5] [0.800] [1 # 5] [1 # 5] [10]
                           [[0; 0; 0; 0]] [[0; 0; 0; 0]] [[0; 0; 0; 0]])
                   _ _) _);
    [vm_compute; reflexivity | vm_compute; reflexivity | vm_compute; lia].
Defined.

(** C7, as stated, fails: with one included image out of three the run
    returns, and its four lines are the blank line, the banner, the notice
    for the image without a match and the XE score; none reports that the
    summary was left out. *)
Lemma summary_gate_counterexample :
  length (included Ex.utils (predict Ex.model Ex.X3) Ex.csvs3 (seq 0 3)) = 1%nat /\
  snd (get_metrics Ex.utils Ex.data3 Ex.craters 256 Ex.model 1 []) = inr tt /\
  map fst (fst (get_metrics Ex.utils Ex.data3 Ex.craters 256 Ex.model 1 [])) =
  [""; banner_fmt; skipping_fmt; xe_fmt].
Proof. repeat split; vm_compute; reflexivity. Qed.

(** C6, as the code has it. When more than 3 images are included, the run
    prints the mean and the standard deviation of recall taken over all
    included images. The statements of the summary name the mean and the
    standard deviation of recall, precision, fscore, frac_new, frac_new2
    and maxrad, the mean alone of the three error lists, and the maximum of
    maxrad. *)
Theorem summary_statistics (U : Utils) data craters dim model beta
    (out0 out1 out2 : log) csvs (L : Acc.t) :
  collect (read_csv U craters dim) (seq 0 (length (fst data))) out0 = (out1, inr csvs) ->
  metrics_loop U beta (predict model (fst data)) csvs (seq 0 (length (fst data)))
               ((out1 ++ [("", [])]) ++ [(banner_fmt, [])]) = (out2, inr L) ->
  let inc := included U (predict model (fst data)) csvs (seq 0 (length (fst data))) in
  let recalls := map (fun m => inject_Z (N_match m) / inject_Z (N_csv m)) inc in
  (3 < length inc)%nat ->
  In (recall_fmt, [Np.mean recalls; Np.std recalls])
     (fst (get_metrics U data craters dim model beta out0)) /\
  (forall s, In s [Recall; Precision; Fscore; Frac_new; Frac_new2; Maxrad] ->
     In (Stat Mean s) (summary_args beta) /\ In (Stat Std s) (summary_args beta)) /\
  (forall s, In s [Err_lo; Err_la; Err_r] ->
     In (Stat Mean s) (summary_args beta) /\ ~ In (Stat Std s) (summary_args beta)) /\
  In (Stat Max Maxrad) (summary_args beta).
Proof.
  intros H1 H2 inc recalls Hq. split; [|split; [|split]].
  - rewrite (get_metrics_eq _ _ _ _ _ _ _ _ _ _ _ H1 H2).
    rewrite (recall_length _ _ _ _ _ _ _ _ H2). fold inc.
    apply Nat.ltb_lt in Hq. rewrite Hq, summary_eq. simpl.
    destruct (included_formulas _ _ _ _ _ _ _ _ H2) as (_ & -> & _).
    fold inc recalls. apply in_or_app. right. left. reflexivity.
  - intros s Hs. simpl in Hs.
    destruct Hs as [<- | [<- | [<- | [<- | [<- | [<- | []]]]]]];
      split; simpl; tauto.
  - intros s Hs. simpl in Hs.
    destruct Hs as [<- | [<- | [<- | []]]];
      (split; [simpl; tauto | simpl; intuition discriminate]).
  - simpl. tauto.
Qed.

Lemma summary_statistics_witness :
  In (recall_fmt, [Np.mean [4 # 5; 2 # 5; 3 # 3; 1 # 5]; Np.std [4 # 5; 2 # 5; 3 # 3; 1 # 5]])
     (fst (get_metrics Ex.utils Ex.data6 Ex.craters 256 Ex.model 1 [])).
Proof.
  refine (proj1 (summary_statistics Ex.utils Ex.data6 Ex.craters 256 Ex.model 1
                   [] [] _ Ex.csvs6 Ex.lists6 _ _ _));
    [vm_compute; reflexivity | vm_compute; reflexivity | vm_compute; lia].
Defined.

(** C6, as stated, fails: with four included images out of six the run
    ends in a [TypeError]; the only summary line it has printed is the one
    for recall, so no statistic of precision, fscore, frac_new, frac_new2,
    maxrad or the errors was computed; and no statement of the summary
    names the standard deviation of an error list. *)
Lemma summary_statistics_counterexample :
  length (included Ex.utils (predict Ex.model Ex.X6) Ex.csvs6 (seq 0 6)) = 4%nat /\
  snd (get_metrics Ex.utils Ex.data6 Ex.craters 256 Ex.model 1 []) = inl TypeError /\
  map fst (fst (get_metrics Ex.utils Ex.data6 Ex.craters 256 Ex.model 1 [])) =
  [""; banner_fmt; skipping_fmt; xe_fmt; recall_fmt] /\
  ~ In (Stat Std Err_lo) (summary_args 1) /\
  ~ In (Stat Std Err_la) (summary_args 1) /\
  ~ In (Stat Std Err_r) (summary_args 1).
Proof.
  repeat split; try (vm_compute; reflexivity);
    simpl; intuition discriminate.
Qed.

(* ================================================================== *)
(** * Further properties of [get_metrics] and [get_param_i]             *)
(* ================================================================== *)

(* ------------------------------------------------------------------ *)
(** ** The nine lists stay aligned                                      *)
(* ------------------------------------------------------------------ *)

(** X1. After a completed loop the nine lists have one length, the number
    of included images, and their entries at one position come from one
    image: the maxrad list holds its [maxr] and the three error lists its
    [elo], [ela] and [er]. *)
Theorem lists_aligned (U : Utils) beta preds csvs (order : list nat)
    (out out' : log) (L : Acc.t) :
  metrics_loop U beta preds csvs order out = (out', inr L) ->
  let inc := included U preds csvs order in
  Acc.maxrad L = map maxr inc /\
  Acc.err_lo L = map elo inc /\
  Acc.err_la L = map ela inc /\
  Acc.err_r L = map er inc /\
  length (Acc.recall L) = length inc /\
  length (Acc.precision L) = length inc /\
  length (Acc.fscore L) = length inc /\
  length (Acc.frac_new L) = length inc /\
  length (Acc.frac_new2 L) = length inc.
Proof.
  intros H inc.
  assert (Hm : Acc.maxrad L = map maxr inc).
  { apply (loop_field Acc.maxrad maxr U beta preds csvs order out out' L);
      [reflexivity | reflexivity | | exact H].
    intros m [[[[p r] f] fn] fn2] _. reflexivity. }
  assert (Hlo : Acc.err_lo L = map elo inc).
  { apply (loop_field Acc.err_lo elo U beta preds csvs order out out' L);
      [reflexivity | reflexivity | | exact H].
    intros m [[[[p r] f] fn] fn2] _. reflexivity. }
  assert (Hla : Acc.err_la L = map ela inc).
  { apply (loop_field Acc.err_la ela U beta preds csvs order out out' L);
      [reflexivity | reflexivity | | exact H].
    intros m [[[[p r] f] fn] fn2] _. reflexivity. }
  assert (Hr : Acc.err_r L = map er inc).
  { apply (loop_field Acc.err_r er U beta preds csvs order out out' L);
      [reflexivity | reflexivity | | exact H].
    intros m [[[[p r] f] fn] fn2] _. reflexivity. }
  assert (Hfn : exists g, Acc.frac_new L = map g inc).
  { eexists.
    apply (loop_field Acc.frac_new _ U beta preds csvs order out out' L);
      [reflexivity | reflexivity | | exact H].
    intros m v Hv. rewrite (image_values_formulas _ _ _ Hv). reflexivity. }
  assert (Hfn2 : exists g, Acc.frac_new2 L = map g inc).
  { eexists.
    apply (loop_field Acc.frac_new2 _ U beta preds csvs order out out' L);
      [reflexivity | reflexivity | | exact H].
    intros m v Hv. rewrite (image_values_formulas _ _ _ Hv). reflexivity. }
  destruct (included_formulas _ _ _ _ _ _ _ _ H) as (Hp & Hrc & Hf).
  destruct Hfn as [g1 Hfn], Hfn2 as [g2 Hfn2].
  repeat split; try assumption.
  - rewrite Hrc. apply length_map.
  - rewrite Hp. apply length_map.
  - rewrite Hf. apply length_map.
  - rewrite Hfn. apply length_map.
  - rewrite Hfn2. apply length_map.
Qed.

Lemma lists_aligned_witness :
  Acc.maxrad Ex.lists6 = [10; 10; 10; 10] /\
  length (Acc.fscore Ex.lists6) = 4%nat.
Proof.
  destruct (lists_aligned Ex.utils 1 Ex.X6 Ex.csvs6 (seq 0 6) [] (fst Ex.loop6)
              Ex.lists6) as (Hm & _ & _ & _ & _ & _ & Hf & _);
    [vm_compute; reflexivity|].
  split; [rewrite Hm | rewrite Hf]; vm_compute; reflexivity.
Defined.

(* ------------------------------------------------------------------ *)
(** ** Relations between the five numbers of one image                  *)
(* ------------------------------------------------------------------ *)


(** The five numbers, each in terms of the counts and of [p] and [r]. *)
Lemma image_values_fields (beta : Z) (m : MatchResult) p r f fn fn2 :
  image_values beta m = inr (p, r, f, fn, fn2) ->
  p = inject_Z (N_match m) / inject_Z (N_match m + (N_templ m - N_match m)) /\
  r = inject_Z (N_match m) / inject_Z (N_csv m) /\
  f = inject_Z (1 + beta ^ 2) * (r * p) / (p * inject_Z (beta ^ 2) + r) /\
  fn = inject_Z (N_templ m - N_match m) / inject_Z (N_templ m) /\
  fn2 = inject_Z (N_templ m - N_match m) / inject_Z (N_csv m).
Proof.
  intro H. pose proof (image_values_formulas _ _ _ H) as E. cbv zeta in E.
  inversion E. repeat split; reflexivity.
Qed.





Lemma Qdiv_le_1 (a b : Q) : 0 < b -> a <= b -> a / b <= 1.
Proof.
  intros Hb H. apply Qle_shift_div_r; [exact Hb|]. rewrite Qmult_1_l. exact H.
Qed.

Lemma Qdiv_lt_1 (a b : Q) : 0 < b -> a < b -> a / b < 1.
Proof.
  intros Hb H. apply Qlt_shift_div_r; [exact Hb|]. rewrite Qmult_1_l. exact H.
Qed.

Lemma Qdiv_nonneg (a b : Q) : 0 <= a -> 0 < b -> 0 <= a / b.
Proof.
  intros Ha Hb. apply Qle_shift_div_l; [exact Hb|]. rewrite Qmult_0_l. exact Ha.
Qed.

Lemma beta_square_nonneg (beta : Z) : 0 <= inject_Z (beta ^ 2).
Proof.
  change 0 with (inject_Z 0). rewrite <- Zle_Qle. apply Z.pow_even_nonneg.
  exists 1%Z. reflexivity.
Qed.

(** The F-beta score of a positive precision and a positive recall is
    positive. *)
Lemma fbeta_pos (p r b : Q) :
  0 < p -> 0 < r -> 0 <= b -> 0 < (1 + b) * (r * p) / (p * b + r).
Proof.
  intros Hp Hr Hb.
  assert (Hpb : 0 <= p * b) by (apply Qmult_le_0_compat; [apply Qlt_le_weak, Hp | exact Hb]).
  assert (Hrp : 0 < r * p) by (apply Qmult_lt_0_compat; assumption).
  apply Qdiv_pos; [|lra].
  apply Qmult_lt_0_compat; [lra | exact Hrp].
Qed.

(** X3. When the matcher's counts satisfy [0 < N_match <= N_csv] and
    [N_match <= N_templ], and the counts and [beta^2] stay below [2^53]
    (so that binary64 holds them exactly), precision and recall lie in
    (0, 1], the fscore is positive, frac_new lies in [0, 1) and frac_new2
    is not negative. *)
Theorem image_values_ranges (beta : Z) (m : MatchResult) p r f fn fn2 :
  (beta ^ 2 < 2 ^ 53)%Z ->
  (0 < N_match m)%Z -> (N_match m <= N_csv m)%Z -> (N_match m <= N_templ m)%Z ->
  (N_csv m < 2 ^ 53)%Z -> (N_templ m < 2 ^ 53)%Z ->
  image_values beta m = inr (p, r, f, fn, fn2) ->
  (0 < p /\ p <= 1) /\ (0 < r /\ r <= 1) /\ 0 < f /\
  (0 <= fn /\ fn < 1) /\ 0 <= fn2.
Proof.
  intros _ Hm Hc Ht _ _ H.
  destruct (image_values_fields _ _ _ _ _ _ _ H) as (Ep & Er & Ef & Efn & Efn2).
  assert (Pm : 0 < inject_Z (N_match m)) by (apply inject_Z_pos; lia).
  assert (Pc : 0 < inject_Z (N_csv m)) by (apply inject_Z_pos; lia).
  assert (Pt : 0 < inject_Z (N_templ m)) by (apply inject_Z_pos; lia).
  assert (Pt' : 0 < inject_Z (N_match m + (N_templ m - N_match m)))
    by (apply inject_Z_pos; lia).
  assert (Lc : inject_Z (N_match m) <= inject_Z (N_csv m)) by (rewrite <- Zle_Qle; lia).
  assert (Lt : inject_Z (N_match m) <= inject_Z (N_match m + (N_templ m - N_match m)))
    by (rewrite <- Zle_Qle; lia).
  assert (Nn : 0 <= inject_Z (N_templ m - N_match m)).
  { change 0 with (inject_Z 0). rewrite <- Zle_Qle. lia. }
  assert (Ln : inject_Z (N_templ m - N_match m) < inject_Z (N_templ m))
    by (rewrite <- Zlt_Qlt; lia).
  assert (Hp : 0 < p /\ p <= 1).
  { subst p. split; [apply Qdiv_pos | apply Qdiv_le_1]; assumption. }
  assert (Hr : 0 < r /\ r <= 1).
  { subst r. split; [apply Qdiv_pos | apply Qdiv_le_1]; assumption. }
  repeat split; try (apply Hp); try (apply Hr).
  - rewrite Ef, inject_Z_plus. change (inject_Z 1) with 1.
    apply fbeta_pos; [apply Hp | apply Hr | apply beta_square_nonneg].
  - subst fn. apply Qdiv_nonneg; assumption.
  - subst fn. apply Qdiv_lt_1; assumption.
  - subst fn2. apply Qdiv_nonneg; assumption.
Qed.

Lemma image_values_ranges_witness :
  (0 < 2 # 3 /\ 2 # 3 <= 1) /\ (0 < 2 # 5 /\ 2 # 5 <= 1) /\ 0 < 120 # 240 /\
  (0 <= 1 # 3 /\ 1 # 3 < 1) /\ 0 <= 1 # 5.
Proof.
  apply (image_values_ranges 1 (mkMatch 2 5 3 10 [] [] [] [])
           (2 # 3) (2 # 5) (120 # 240) (1 # 3) (1 # 5));
    [reflexivity | reflexivity | discriminate | discriminate
    | reflexivity | reflexivity | vm_compute; reflexivity].
Defined.

(** X4. When every detection is matched and every crater is found
    ([N_match = N_csv = N_templ > 0]), lines 146-150 raise nothing and give
    precision, recall and fscore equal to one and both fractions of new
    craters equal to zero, for every integer [beta] whose square is below
    [2^53] and every count below [2^53], so that [1 + beta^2] and the
    counts are binary64 numbers. *)
Theorem perfect_match (beta : Z) (m : MatchResult) (out : log) :
  (beta ^ 2 < 2 ^ 53)%Z ->
  (0 < N_match m < 2 ^ 53)%Z -> N_csv m = N_match m -> N_templ m = N_match m ->
  exists p r f fn fn2,
    image_metrics beta m out = (out, inr (p, r, f, fn, fn2)) /\
    p == 1 /\ r == 1 /\ f == 1 /\ fn == 0 /\ fn2 == 0.
Proof.
  intros _ [Hm _] Hc Ht.
  assert (Pm : 0 < inject_Z (N_match m)) by (apply inject_Z_pos; lia).
  assert (Nz : ~ inject_Z (N_match m) == 0) by lra.
  assert (E0 : (N_match m + (N_match m - N_match m))%Z = N_match m) by lia.
  assert (E1 : inject_Z (N_match m) / inject_Z (N_match m) == 1) by (field; exact Nz).
  assert (Hb := beta_square_nonneg beta).
  assert (D3 : ~ inject_Z (N_match m) / inject_Z (N_match m) * inject_Z (beta ^ 2)
                 + inject_Z (N_match m) / inject_Z (N_match m) == 0).
  { rewrite E1. lra. }
  unfold image_metrics, bind. rewrite Hc, Ht, E0.
  rewrite (fdiv_ok _ _ out Nz), (fdiv_ok _ _ out Nz), (fdiv_ok _ _ out D3),
    (fdiv_ok _ _ out Nz), (fdiv_ok _ _ out Nz).
  do 5 eexists. split; [reflexivity|].
  replace (N_match m - N_match m)%Z with 0%Z by lia.
  split; [exact E1|]. split; [exact E1|]. split; [|split].
  - rewrite E1, inject_Z_plus. change (inject_Z 1) with 1. field. lra.
  - change (inject_Z 0) with 0. field. exact Nz.
  - change (inject_Z 0) with 0. field. exact Nz.
Qed.

Lemma perfect_match_witness :
  exists p r f fn fn2,
    image_metrics 2 (mkMatch 3 3 3 10 [] [] [] []) [] = ([], inr (p, r, f, fn, fn2)) /\
    p == 1 /\ r == 1 /\ f == 1 /\ fn == 0 /\ fn2 == 0.
Proof.
  apply (perfect_match 2 (mkMatch 3 3 3 10 [] [] [] []) []);
    [reflexivity | split; reflexivity | reflexivity | reflexivity].
Defined.

(* ------------------------------------------------------------------ *)
(** ** The ground-truth filter and the first loop                       *)
(* ------------------------------------------------------------------ *)



Lemma keeps_mono (dim dim' : Z) (c : Row) :
  (dim <= dim')%Z -> keeps dim c = true -> keeps dim' c = true.
Proof.
  intro Hd. rewrite !keeps_iff.
  assert (HD : inject_Z dim <= inject_Z dim') by (rewrite <- Zle_Qle; exact Hd).
  intros (H1 & H2 & H3 & H4 & H5 & H6).
  repeat split; try assumption; eapply Qle_trans; eassumption.
Qed.

(** X6. The filter keeps more in a larger image: for [dim <= dim'], the
    rows kept at [dim] are exactly the rows, among those kept at [dim'],
    that pass the test at [dim]. *)
Theorem csv_filter_mono (dim dim' : Z) (csv : list Row) :
  (dim <= dim')%Z ->
  csv_filter dim (csv_filter dim' csv) = csv_filter dim csv /\
  (length (csv_filter dim csv) <= length (csv_filter dim' csv))%nat.
Proof.
  intro Hd. rewrite !csv_filter_keeps.
  assert (E : filter (keeps dim) (filter (keeps dim') csv) = filter (keeps dim) csv).
  { rewrite filter_filter. apply filter_ext. intro c.
    destruct (keeps dim c) eqn:K.
    - rewrite (keeps_mono dim dim' c Hd K). reflexivity.
    - apply andb_false_r. }
  split; [exact E|].
  rewrite <- E. apply filter_length_le.
Qed.

Lemma csv_filter_mono_witness :
  (length (csv_filter 128 Ex.table0) <= length (csv_filter 256 Ex.table0))%nat.
Proof.
  apply (csv_filter_mono 128 256 Ex.table0). discriminate.
Defined.

Lemma collect_read_csv_entries (U : Utils) craters dim (n s : nat) (out out' : log) csvs :
  collect (read_csv U craters dim) (seq s n) out = (out', inr csvs) ->
  out' = out /\ length csvs = n /\
  forall e, In e csvs ->
    e = Sentinel \/
    exists c, e = Coords c /\ (3 <= length c)%nat /\
      forall x y r, In (x, y, r) c -> 2 < r /\ r < 50.
Proof.
  revert out out' csvs s.
  induction n as [|n IH]; intros out out' csvs s H.
  - simpl in H. inversion H. repeat split. intros e [].
  - simpl in H. apply bind_inr in H. destruct H as (e0 & out1 & H1 & H2).
    apply bind_inr in H2. destruct H2 as (bs & out2 & H2 & H3).
    inversion H3; subst. clear H3.
    destruct (IH _ _ _ _ H2) as (-> & Hlen & Hall).
    assert (E1 : out1 = out).
    { rewrite (silent_read_csv U craters dim s out) in H1. inversion H1. reflexivity. }
    split; [exact E1|]. split; [simpl; rewrite Hlen; reflexivity|].
    intros e [<- | He]; [|apply Hall, He].
    unfold read_csv in H1. destruct (craters (get_id U s)) as [csv|]; [|discriminate].
    destruct (length (csv_filter dim csv) <? 3)%nat eqn:E3; inversion H1; subst.
    + left. reflexivity.
    + right. eexists. split; [reflexivity|]. split.
      * rewrite length_csv_coords. apply Nat.ltb_ge, E3.
      * intros x y r Hin. unfold csv_coords in Hin. apply in_map_iff in Hin.
        destruct Hin as (c & Ec & Hc). inversion Ec; subst.
        rewrite csv_filter_keeps in Hc. apply filter_In in Hc.
        destruct Hc as [_ Hk]. apply keeps_iff in Hk. split; apply Hk.
Qed.

(** X7. A completed first loop has printed nothing and has stored one
    entry per image; each entry is the placeholder or holds at least three
    circles, every one with its radius strictly between 2 and 50. *)
Theorem first_loop_entries (U : Utils) craters dim (n : nat) (out out' : log) csvs :
  collect (read_csv U craters dim) (seq 0 n) out = (out', inr csvs) ->
  out' = out /\ length csvs = n /\
  forall e, In e csvs ->
    e = Sentinel \/
    exists c, e = Coords c /\ (3 <= length c)%nat /\
      forall x y r, In (x, y, r) c -> 2 < r /\ r < 50.
Proof. apply collect_read_csv_entries. Qed.

Lemma first_loop_entries_witness :
  length Ex.csvs6 = 6%nat.
Proof.
  destruct (first_loop_entries Ex.utils Ex.craters 256 6 [] [] Ex.csvs6) as (_ & H & _);
    [vm_compute; reflexivity | exact H].
Defined.

Lemma first_loop_raises (U : Utils) craters dim (l : list nat) (out : log) i :
  In i l -> craters (get_id U i) = None ->
  collect (read_csv U craters dim) l out = (out, inl KeyError).
Proof.
  intros Hi Hc. induction l as [|a l IH]; [destruct Hi|]. simpl. unfold bind.
  rewrite (silent_read_csv U craters dim a out).
  unfold read_csv at 1. destruct (craters (get_id U a)) as [csv|] eqn:Ea.
  - destruct Hi as [-> | Hi]; [congruence|].
    destruct (length (csv_filter dim csv) <? 3)%nat; simpl; rewrite (IH Hi); reflexivity.
  - reflexivity.
Qed.

(** X8. A missing table stops [get_metrics] before it prints anything:
    when some image of the batch has no entry in [craters], the run raises
    [KeyError] and the output is unchanged. *)
Theorem missing_table (U : Utils) data craters dim model beta (out0 : log) (i : nat) :
  (i < length (fst data))%nat -> craters (get_id U i) = None ->
  get_metrics U data craters dim model beta out0 = (out0, inl KeyError).
Proof.
  intros Hi Hc. unfold get_metrics. cbv zeta. unfold bind at 1.
  rewrite (first_loop_raises U craters dim _ out0 i); [reflexivity | | exact Hc].
  apply in_seq. lia.
Qed.

Lemma missing_table_witness :
  get_metrics Ex.utils ([Ex.img0], [Ex.img0]) (fun _ => None) 256 Ex.model 1 [] =
  ([], inl KeyError).
Proof.
  apply (missing_table Ex.utils ([Ex.img0], [Ex.img0]) (fun _ => None) 256 Ex.model 1
           [] 0); [simpl; lia | reflexivity].
Defined.

(* ------------------------------------------------------------------ *)
(** ** How the second loop composes, and how a run ends                 *)
(* ------------------------------------------------------------------ *)

Lemma for_each_app {A S} (f : A -> S -> M S) (a b : list A) (s : S) (out : log) :
  for_each f (a ++ b) s out = bind (for_each f a s) (for_each f b) out.
Proof.
  revert s out. induction a as [|x a IH]; intros s out; simpl.
  - reflexivity.
  - unfold bind. destruct (f x s out) as [out1 [e | s1]]; [reflexivity|].
    rewrite IH. reflexivity.
Qed.

(** X9. The second loop can be run in pieces: when it completes on the
    images [a] and on the images [b], each from empty lists, it completes
    on [a ++ b], its lists are the field-wise concatenation of the two
    results and its output is the two outputs one after the other. *)
Theorem loop_concat (U : Utils) beta preds csvs (a b : list nat)
    (oa ob : log) (La Lb : Acc.t) :
  metrics_loop U beta preds csvs a [] = (oa, inr La) ->
  metrics_loop U beta preds csvs b [] = (ob, inr Lb) ->
  forall out,
    metrics_loop U beta preds csvs (a ++ b) out = (out ++ oa ++ ob, inr (Acc_app La Lb)).
Proof.
  unfold metrics_loop. intros Ha Hb out.
  rewrite for_each_app. unfold bind.
  rewrite loop_frame, Ha. simpl. rewrite Acc_app_empty_l.
  rewrite loop_frame, Hb. simpl. rewrite app_assoc. reflexivity.
Qed.

Lemma loop_concat_witness :
  metrics_loop Ex.utils 1 Ex.X6 Ex.csvs6 ([0; 1; 2] ++ [3; 4; 5])%nat [("", [])] =
  ([("", [])] ++ [(skipping_fmt, [Int 2; Int 3; Int 2; Int 0])] ++ [],
   inr (Acc_app (Acc.mk [4 # 5] [4 # 5] [0.800] [1 # 5] [1 # 5] [10]
                        [[0; 0; 0; 0]] [[0; 0; 0; 0]] [[0; 0; 0; 0]])
                (Acc.mk [2 # 5; 3 # 3; 1 # 5] [2 # 3; 3 # 3; 1 # 4]
                        [120 # 240; 162 # 162; 40 # 180] [1 # 3; 0 # 3; 3 # 4]
                        [1 # 5; 0 # 3; 3 # 5] [10; 10; 10]
                        [[0; 0]; [0; 0; 0]; [0]] [[0; 0]; [0; 0; 0]; [0]]
                        [[0; 0]; [0; 0; 0]; [0]]))).
Proof.
  apply (loop_concat Ex.utils 1 Ex.X6 Ex.csvs6 [0; 1; 2]%nat [3; 4; 5]%nat);
    vm_compute; reflexivity.
Defined.

(** X10. Once the two loops have completed, [get_metrics] returns exactly
    when at most 3 images were included; with more than 3 it raises
    [TypeError] right after the line with the mean and standard deviation
    of recall, at the first [/] between two format strings. *)
Theorem run_ends (U : Utils) data craters dim model beta
    (out0 out1 out2 : log) csvs (L : Acc.t) :
  collect (read_csv U craters dim) (seq 0 (length (fst data))) out0 = (out1, inr csvs) ->
  metrics_loop U beta (predict model (fst data)) csvs (seq 0 (length (fst data)))
               ((out1 ++ [("", [])]) ++ [(banner_fmt, [])]) = (out2, inr L) ->
  let q := length (included U (predict model (fst data)) csvs
                            (seq 0 (length (fst data)))) in
  let xe := (xe_fmt, [Float (evaluate model (fst data) (snd data))]) in
  (snd (get_metrics U data craters dim model beta out0) = inr tt <-> (q <= 3)%nat) /\
  ((3 < q)%nat ->
   get_metrics U data craters dim model beta out0 =
   (out2 ++ [xe; (recall_fmt, [Np.mean (Acc.recall L); Np.std (Acc.recall L)])],
    inl TypeError)).
Proof.
  intros H1 H2 q xe.
  rewrite (get_metrics_eq _ _ _ _ _ _ _ _ _ _ _ H1 H2).
  rewrite (recall_length _ _ _ _ _ _ _ _ H2). fold q.
  destruct (3 <? q)%nat eqn:E.
  - apply Nat.ltb_lt in E. rewrite summary_eq. split.
    + simpl. split; [discriminate | lia].
    + intros _. rewrite <- app_assoc. reflexivity.
  - apply Nat.ltb_ge in E. split.
    + simpl. split; [intros _; exact E | reflexivity].
    + lia.
Qed.

Lemma run_ends_witness :
  get_metrics Ex.utils Ex.data6 Ex.craters 256 Ex.model 1 [] =
  (fst Ex.loop6_banner
   ++ [(xe_fmt, [Float (1 # 10)]);
       (recall_fmt, [Np.mean (Acc.recall Ex.lists6); Np.std (Acc.recall Ex.lists6)])],
   inl TypeError).
Proof.
  refine (proj2 (run_ends Ex.utils Ex.data6 Ex.craters 256 Ex.model 1
                   [] [] (fst Ex.loop6_banner) Ex.csvs6 Ex.lists6 _ _) _);
    [vm_compute; reflexivity | vm_compute; reflexivity | vm_compute; lia].
Defined.

Lemma for_each_unchanged {A S} (f : A -> S -> M S) (l : list A) (s : S) (out : log) :
  (forall a, In a l -> f a s out = (out, inr s)) ->
  for_each f l s out = (out, inr s).
Proof.
  induction l as [|a l IH]; intro H; simpl; [reflexivity|].
  unfold bind. rewrite (H a (or_introl eq_refl)). apply IH.
  intros b Hb. apply H. right. exact Hb.
Qed.

Lemma first_loop_completes (U : Utils) craters dim (l : list nat) (out : log) :
  (forall i, In i l -> craters (get_id U i) <> None) ->
  exists csvs, collect (read_csv U craters dim) l out = (out, inr csvs).
Proof.
  induction l as [|a l IH]; intro H; simpl.
  - eexists. reflexivity.
  - destruct IH as [csvs E]; [intros i Hi; apply H; right; exact Hi|].
    unfold bind. rewrite (silent_read_csv U craters dim a out).
    unfold read_csv at 1.
    destruct (craters (get_id U a)) as [csv|] eqn:Ea;
      [|exfalso; apply (H a (or_introl eq_refl)); exact Ea].
    destruct (length (csv_filter dim csv) <? 3)%nat; simpl; rewrite E;
      eexists; reflexivity.
Qed.

(** X11. When every image of the batch has a table with fewer than three
    usable craters (in particular when the batch is empty), [get_metrics]
    prints the blank line, the banner and the XE score, nothing else, and
    returns. *)
Theorem nothing_usable (U : Utils) data craters dim model beta (out0 : log) :
  (forall i, (i < length (fst data))%nat ->
     exists csv, craters (get_id U i) = Some csv /\
                 (length (csv_filter dim csv) < 3)%nat) ->
  get_metrics U data craters dim model beta out0 =
  (out0 ++ [("", []); (banner_fmt, []);
            (xe_fmt, [Float (evaluate model (fst data) (snd data))])],
   inr tt).
Proof.
  intro H.
  destruct (first_loop_completes U craters dim (seq 0 (length (fst data))) out0)
    as [csvs E1].
  { intros i Hi. apply in_seq in Hi. destruct (H i) as (csv & -> & _); [lia | discriminate]. }
  assert (E2 : metrics_loop U beta (predict model (fst data)) csvs
                 (seq 0 (length (fst data)))
                 ((out0 ++ [("", [])]) ++ [(banner_fmt, [])])
               = ((out0 ++ [("", [])]) ++ [(banner_fmt, [])], inr Acc.empty)).
  { unfold metrics_loop. apply for_each_unchanged. intros i Hi.
    apply in_seq in Hi. destruct (H i) as (csv & Hc & Hlen); [lia|].
    rewrite image_step_eq.
    rewrite (first_loop_index _ _ _ _ _ _ _ _ _ E1 (proj2 Hi) Hc).
    apply Nat.ltb_lt in Hlen. rewrite Hlen. reflexivity. }
  rewrite (get_metrics_eq _ _ _ _ _ _ _ _ _ _ _ E1 E2). simpl.
  unfold ret. rewrite <- !app_assoc. reflexivity.
Qed.

Lemma nothing_usable_witness :
  get_metrics Ex.utils ([Ex.img1; Ex.img1], []) (fun _ => Some Ex.table1) 256
              Ex.model 1 [] =
  ([] ++ [("", []); (banner_fmt, []); (xe_fmt, [Float (1 # 10)])], inr tt).
Proof.
  apply (nothing_usable Ex.utils ([Ex.img1; Ex.img1], []) (fun _ => Some Ex.table1)
           256 Ex.model 1 []).
  intros i _. exists Ex.table1. split; [reflexivity | vm_compute; lia].
Defined.

(* ------------------------------------------------------------------ *)
(** ** The exceptions of a run                                          *)
(* ------------------------------------------------------------------ *)

Lemma index_exn {A} (l : list A) (i : Z) e : index l i = inl e -> e = IndexError.
Proof.
  unfold index.
  destruct ((if (i <? 0)%Z then (Z.of_nat (length l) + i)%Z else i) <? 0)%Z;
    [congruence|].
  destruct (nth_error l _); congruence.
Qed.

(* ------------------------------------------------------------------ *)
(** ** [get_param_i] outside the natural numbers                        *)
(* ------------------------------------------------------------------ *)

(** X13. [get_param_i] raises exactly when the list is empty or the index
    lies below [-len(param)], and then it is an [IndexError]; a negative
    index from [-len(param)] on counts from the end of the list; whatever
    is returned is an element of the list. *)
Theorem get_param_i_failure {A} (param : list A) (i : Z) :
  (forall e, get_param_i param i = inl e ->
     e = IndexError /\ (param = [] \/ (i < - Z.of_nat (length param))%Z)) /\
  (param = [] \/ (i < - Z.of_nat (length param))%Z ->
   get_param_i param i = inl IndexError) /\
  (forall x, get_param_i param i = inr x -> In x param) /\
  (forall d, (- Z.of_nat (length param) <= i < 0)%Z ->
     get_param_i param i = inr (nth (Z.to_nat (Z.of_nat (length param) + i)) param d)).
Proof.
  assert (Hneg : forall d, (- Z.of_nat (length param) <= i < 0)%Z ->
            get_param_i param i
            = inr (nth (Z.to_nat (Z.of_nat (length param) + i)) param d)).
  { intros d Hi. unfold get_param_i.
    replace (Z.of_nat (length param) >? i)%Z with true by (symmetry; apply Z.gtb_lt; lia).
    unfold index.
    replace (i <? 0)%Z with true by (symmetry; apply Z.ltb_lt; lia).
    replace (Z.of_nat (length param) + i <? 0)%Z with false
      by (symmetry; apply Z.ltb_ge; lia).
    rewrite (nth_error_nth' param d); [reflexivity | lia]. }
  assert (Hfail : param = [] \/ (i < - Z.of_nat (length param))%Z ->
            get_param_i param i = inl IndexError).
  { intros [-> | Hi].
    - unfold get_param_i, index. simpl.
      destruct (0 >? i)%Z; destruct (i <? 0)%Z eqn:E; simpl; rewrite ?E; try reflexivity.
      + destruct (Z.to_nat i); reflexivity.
    - unfold get_param_i.
      replace (Z.of_nat (length param) >? i)%Z with true
        by (symmetry; apply Z.gtb_lt; lia).
      unfold index.
      replace (i <? 0)%Z with true by (symmetry; apply Z.ltb_lt; lia).
      replace (Z.of_nat (length param) + i <? 0)%Z with true
        by (symmetry; apply Z.ltb_lt; lia).
      reflexivity. }
  assert (Hok : forall x, get_param_i param i = inr x -> In x param).
  { intros x. unfold get_param_i, index.
    destruct (Z.of_nat (length param) >? i)%Z.
    - destruct ((if (i <? 0)%Z then (Z.of_nat (length param) + i)%Z else i) <? 0)%Z;
        [discriminate|].
      destruct (nth_error param _) as [a|] eqn:E; [|discriminate].
      intro H. inversion H; subst. exact (nth_error_In _ _ E).
    - simpl. destruct param as [|a l]; simpl; [discriminate|].
      intro H. inversion H. left. reflexivity. }
  repeat split; try assumption.
  - destruct (get_param_i param i) as [e' | x] eqn:E; [|discriminate].
    unfold get_param_i in E.
    destruct (Z.of_nat (length param) >? i)%Z;
      inversion H; subst; exact (index_exn _ _ _ E).
  - destruct param as [|a l]; [left; reflexivity|]. right.
    destruct (Z_lt_le_dec i (- Z.of_nat (length (a :: l)))) as [Hlt | Hge]; [exact Hlt|].
    exfalso.
    destruct (Z_lt_le_dec i 0) as [Hn | Hp].
    + rewrite (Hneg a) in H by lia. discriminate.
    + unfold get_param_i in H.
      destruct (Z.of_nat (length (a :: l)) >? i)%Z eqn:G.
      * apply Z.gtb_lt in G. rewrite (index_in_range (a :: l) i a) in H by lia.
        discriminate.
      * discriminate.
Qed.

(* ================================================================== *)
(** * Properties of [custom_image_generator]                            *)
(* ================================================================== *)

(* ------------------------------------------------------------------ *)
(** ** Slices and shapes                                                *)
(* ------------------------------------------------------------------ *)

Lemma clamp_nat (n a : nat) : clamp n (Z.of_nat a) = Nat.min a n.
Proof.
  unfold clamp. destruct (Z.of_nat a <? 0)%Z eqn:E; [apply Z.ltb_lt in E; lia|].
  rewrite Nat2Z.id. reflexivity.
Qed.

Lemma py_slice_nat {A} (l : list A) (a b : nat) :
  py_slice l (Z.of_nat a) (Z.of_nat b) =
  firstn (Nat.min b (length l) - Nat.min a (length l)) (skipn (Nat.min a (length l)) l).
Proof. unfold py_slice. rewrite !clamp_nat. reflexivity. Qed.

Lemma py_slice_inside {A} (l : list A) (a b : nat) :
  (a <= b)%nat -> (b <= length l)%nat ->
  py_slice l (Z.of_nat a) (Z.of_nat b) = firstn (b - a) (skipn a l).
Proof.
  intros Hab Hb. rewrite py_slice_nat.
  rewrite (Nat.min_l b), (Nat.min_l a) by lia. reflexivity.
Qed.

Lemma length_py_slice_inside {A} (l : list A) (a b : nat) :
  (a <= b)%nat -> (b <= length l)%nat ->
  length (py_slice l (Z.of_nat a) (Z.of_nat b)) = (b - a)%nat.
Proof.
  intros Hab Hb. rewrite py_slice_inside by assumption.
  rewrite length_firstn, length_skipn. lia.
Qed.

Lemma length_py_slice_nat {A} (l : list A) (a b : nat) :
  length (py_slice l (Z.of_nat a) (Z.of_nat b)) =
  (Nat.min b (length l) - Nat.min a (length l))%nat.
Proof.
  rewrite py_slice_nat, length_firstn, length_skipn. lia.
Qed.

Lemma Forall_firstn_skipn {A} (P : A -> Prop) (l : list A) (n : nat) :
  Forall P l -> Forall P (firstn n l) /\ Forall P (skipn n l).
Proof.
  intro H. rewrite <- (firstn_skipn n l) in H. apply Forall_app in H. exact H.
Qed.

Lemma Forall_py_slice {A} (P : A -> Prop) (l : list A) (a b : Z) :
  Forall P l -> Forall P (py_slice l a b).
Proof.
  intro H. unfold py_slice.
  apply Forall_firstn_skipn. apply Forall_firstn_skipn. exact H.
Qed.

Lemma rect_width {A} (L W : nat) (m : image A) :
  rect L W m -> (0 < L)%nat -> width m = W.
Proof.
  intros [Hl Hr] HL. unfold width. destruct m as [|row m]; simpl in *; [lia|].
  inversion Hr. assumption.
Qed.

Lemma rect_fliplr {A} (L W : nat) (m : image A) : rect L W m -> rect L W (fliplr m).
Proof.
  intros [Hl Hr]. split; unfold fliplr.
  - rewrite length_map. exact Hl.
  - apply Forall_map. eapply Forall_impl; [|exact Hr].
    intros row Hrow. simpl in *. rewrite length_rev. exact Hrow.
Qed.

Lemma rect_flipud {A} (L W : nat) (m : image A) : rect L W m -> rect L W (flipud m).
Proof.
  intros [Hl Hr]. split; unfold flipud.
  - rewrite length_rev. exact Hl.
  - apply Forall_rev. exact Hr.
Qed.

Lemma Forall_repeat {X} (P : X -> Prop) (a : X) (n : nat) : P a -> Forall P (repeat a n).
Proof. intro H. induction n; simpl; constructor; assumption. Qed.

Lemma rect_pad {A} (p : nat) (z : A) (L W : nat) (m : image A) :
  rect L W m -> (0 < L)%nat -> rect (L + 2 * p) (W + 2 * p) (pad p z m).
Proof.
  intros Hm HL. pose proof (rect_width _ _ _ Hm HL) as Hw.
  destruct Hm as [Hl Hr]. unfold pad. rewrite Hw. split.
  - rewrite !length_app, !repeat_length, length_map. lia.
  - apply Forall_app. split; [|apply Forall_app; split].
    + apply Forall_repeat. apply repeat_length.
    + apply Forall_map. eapply Forall_impl; [|exact Hr].
      intros row Hrow. simpl in *. rewrite !length_app, !repeat_length. lia.
    + apply Forall_repeat. apply repeat_length.
Qed.

Lemma rect_crop {A} (L W : nat) (m : image A) (r0 r1 c0 c1 : nat) :
  rect L W m -> (r0 <= r1 <= L)%nat -> (c0 <= c1 <= W)%nat ->
  rect (r1 - r0) (c1 - c0)
       (crop m (Z.of_nat r0) (Z.of_nat r1) (Z.of_nat c0) (Z.of_nat c1)).
Proof.
  intros [Hl Hr] Hrows Hcols. unfold crop. split.
  - rewrite length_map, length_py_slice_inside; lia.
  - apply Forall_map. apply Forall_py_slice.
    eapply Forall_impl; [|exact Hr].
    intros row Hrow. simpl in *. rewrite length_py_slice_inside; lia.
Qed.

Lemma shifted_nat {X} (z : X) (L W : nat) (h v : Z) (m : image X) :
  (- Z.of_nat npix <= h <= Z.of_nat npix)%Z ->
  (- Z.of_nat npix <= v <= Z.of_nat npix)%Z ->
  shifted z L W h v m =
  crop (pad npix z m)
       (Z.of_nat (Z.to_nat (Z.of_nat npix + h)))
       (Z.of_nat (L + Z.to_nat (Z.of_nat npix + h)))
       (Z.of_nat (Z.to_nat (Z.of_nat npix + v)))
       (Z.of_nat (W + Z.to_nat (Z.of_nat npix + v))).
Proof.
  intros Hh Hv. unfold shifted. f_equal; lia.
Qed.

Lemma rect_shifted {X} (z : X) (L W : nat) (h v : Z) (m : image X) :
  rect L W m -> (0 < L)%nat ->
  (- Z.of_nat npix <= h <= Z.of_nat npix)%Z ->
  (- Z.of_nat npix <= v <= Z.of_nat npix)%Z ->
  rect L W (shifted z L W h v m).
Proof.
  intros Hm HL Hh Hv. rewrite shifted_nat by assumption.
  pose proof (rect_crop _ _ _ (Z.to_nat (Z.of_nat npix + h))
                (L + Z.to_nat (Z.of_nat npix + h))
                (Z.to_nat (Z.of_nat npix + v)) (W + Z.to_nat (Z.of_nat npix + v))
                (rect_pad npix z L W m Hm HL)) as H.
  replace (L + Z.to_nat (Z.of_nat npix + h) - Z.to_nat (Z.of_nat npix + h))%nat
    with L in H by lia.
  replace (W + Z.to_nat (Z.of_nat npix + v) - Z.to_nat (Z.of_nat npix + v))%nat
    with W in H by lia.
  apply H; lia.
Qed.

Lemma transpose_zipcons {A} (m : image A) :
  transpose m = fold_right zipcons (repeat [] (width m)) m.
Proof. reflexivity. Qed.

Lemma fold_zipcons_rect {A} (W : nat) (m : image A) :
  Forall (fun row => length row = W) m ->
  rect W (length m) (fold_right zipcons (repeat [] W) m).
Proof.
  induction m as [|row m IH]; intro H; simpl.
  - split; [apply repeat_length | apply Forall_repeat; reflexivity].
  - apply Forall_cons_iff in H. destruct H as [Hrow Hm].
    destruct (IH Hm) as [Hl Hc]. split.
    + unfold zipcons at 1. rewrite length_map, length_combine, Hl, Hrow. apply Nat.min_id.
    + unfold zipcons at 1. apply Forall_map. apply Forall_forall.
      intros [a c] Hin. simpl. f_equal.
      apply in_combine_r in Hin.
      exact (proj1 (Forall_forall _ _) Hc c Hin).
Qed.

Lemma rect_transpose {A} (L W : nat) (m : image A) :
  rect L W m -> (0 < L)%nat -> rect W L (transpose m).
Proof.
  intros Hm HL. rewrite transpose_zipcons, (rect_width _ _ _ Hm HL).
  destruct Hm as [<- Hr]. apply fold_zipcons_rect, Hr.
Qed.

Lemma rot90_cases {A} (m : image A) (k : Z) :
  rot90 m k = m \/ rot90 m k = transpose (fliplr m) \/
  rot90 m k = fliplr (flipud m) \/ rot90 m k = fliplr (transpose m).
Proof.
  unfold rot90. destruct (k mod 4)%Z as [|p|p]; auto.
  destruct p as [p|p|]; auto. destruct p as [p|p|]; auto.
Qed.

Lemma rect_rot90 {A} (L : nat) (m : image A) (k : Z) :
  rect L L m -> (0 < L)%nat -> rect L L (rot90 m k).
Proof.
  intros Hm HL.
  destruct (rot90_cases m k) as [-> | [-> | [-> | ->]]].
  - exact Hm.
  - apply rect_transpose; [apply rect_fliplr, Hm | exact HL].
  - apply rect_fliplr, rect_flipud, Hm.
  - apply rect_fliplr, rect_transpose; assumption.
Qed.

(* ------------------------------------------------------------------ *)
(** ** Assignment into the batch                                        *)
(* ------------------------------------------------------------------ *)

Lemma all_some_id {X} (f : X -> option X) (l : list X) :
  (forall a, In a l -> f a = Some a) -> all_some (map f l) = Some l.
Proof.
  induction l as [|a l IH]; intro H; simpl; [reflexivity|].
  rewrite (H a (or_introl eq_refl)), IH; [reflexivity|].
  intros b Hb. apply H. right. exact Hb.
Qed.

Lemma broadcast_rect {A} (L W : nat) (old x : image A) :
  rect L W old -> rect L W x -> (0 < L)%nat -> broadcast old x = Some x.
Proof.
  intros Ho Hx HL. unfold broadcast, stretch at 1.
  rewrite (rect_width _ _ _ Ho HL).
  destruct Ho as [Hol _], Hx as [Hxl Hxr].
  rewrite Hol, Hxl, Nat.eqb_refl.
  apply all_some_id. intros row Hrow. unfold stretch.
  rewrite (proj1 (Forall_forall _ _) Hxr row Hrow), Nat.eqb_refl. reflexivity.
Qed.

Lemma index_nth_error {A} (l : list A) (j : nat) a :
  index l (Z.of_nat j) = inr a <-> nth_error l j = Some a.
Proof.
  rewrite index_nat. destruct (nth_error l j); split; congruence.
Qed.

Lemma index_some {A} (l : list A) (j : nat) :
  (j < length l)%nat -> exists a, index l (Z.of_nat j) = inr a /\ In a l.
Proof.
  intro Hj. rewrite index_nat.
  destruct (nth_error l j) as [a|] eqn:E.
  - exists a. split; [reflexivity | exact (nth_error_In _ _ E)].
  - apply nth_error_None in E. lia.
Qed.

Lemma index_none {A} (l : list A) (j : nat) :
  (length l <= j)%nat -> index l (Z.of_nat j) = inl IndexError.
Proof.
  intro Hj. rewrite index_nat.
  destruct (nth_error l j) as [a|] eqn:E; [|reflexivity].
  assert (j < length l)%nat by (apply nth_error_Some; congruence). lia.
Qed.

Lemma length_update {X} (d : list X) (j : nat) (x : X) :
  (j < length d)%nat -> length (firstn j d ++ x :: skipn (S j) d) = length d.
Proof.
  intro Hj. rewrite length_app, length_firstn.
  change (length (x :: skipn (S j) d)) with (S (length (skipn (S j) d))).
  rewrite length_skipn. lia.
Qed.

Lemma length_update_n {X} (d : list X) (j n : nat) (x : X) :
  (j < n)%nat -> length d = n -> length (firstn j d ++ x :: skipn (S j) d) = n.
Proof. intros Hj Hd. rewrite length_update; lia. Qed.

Lemma assign_length {A} (d d' : list (image A)) (j : nat) (x : image A) :
  assign d j x = inr d' -> length d' = length d.
Proof.
  unfold assign. destruct (nth_error d j) as [old|] eqn:E; [|discriminate].
  destruct (broadcast old x) as [x'|]; [|discriminate].
  intro H. inversion H; subst.
  assert (j < length d)%nat by (apply nth_error_Some; congruence).
  apply length_update. assumption.
Qed.

Lemma assign_rect {A} (L W : nat) (d : list (image A)) (j : nat) (x : image A) :
  Forall (rect L W) d -> rect L W x -> (0 < L)%nat -> (j < length d)%nat ->
  assign d j x = inr (firstn j d ++ x :: skipn (S j) d) /\
  Forall (rect L W) (firstn j d ++ x :: skipn (S j) d).
Proof.
  intros Hd Hx HL Hj. unfold assign.
  destruct (nth_error d j) as [old|] eqn:E; [|apply nth_error_None in E; lia].
  assert (Ho : rect L W old).
  { exact (proj1 (Forall_forall _ _) Hd old (nth_error_In _ _ E)). }
  rewrite (broadcast_rect L W old x Ho Hx HL). split; [reflexivity|].
  apply Forall_app. split; [apply Forall_firstn_skipn, Hd|].
  constructor; [exact Hx | apply Forall_firstn_skipn, Hd].
Qed.

(* ------------------------------------------------------------------ *)
(** ** One batch                                                        *)
(* ------------------------------------------------------------------ *)

Lemma rfor_invariant {X S} (P : S -> Prop) (f : X -> S -> result S) (l : list X) (s : S) :
  (forall a s0, In a l -> P s0 -> exists s1, f a s0 = inr s1 /\ P s1) ->
  P s -> exists s', rfor f l s = inr s' /\ P s'.
Proof.
  revert s. induction l as [|a l IH]; intros s Hf Hs; simpl.
  - exists s. split; [reflexivity | exact Hs].
  - destruct (Hf a s (or_introl eq_refl) Hs) as (s1 & E & Hs1).
    rewrite E. simpl. apply IH; [|exact Hs1].
    intros b s0 Hb. apply Hf. right. exact Hb.
Qed.

Lemma assign_both_full {A B} (L W n : nat) (fa : image A -> image A)
    (fb : image B -> image B) (j : nat) (s : batch_pair A B) :
  (forall m, rect L W m -> rect L W (fa m)) ->
  (forall m, rect L W m -> rect L W (fb m)) ->
  (0 < L)%nat -> (j < n)%nat -> full_batch L W n s ->
  exists s', assign_both fa fb j s = inr s' /\ full_batch L W n s'.
Proof.
  intros Hfa Hfb HL Hj (Hd & Ht & Rd & Rt). unfold assign_both.
  destruct (index_some (fst s) j) as (dj & Ed & Id); [lia|].
  destruct (index_some (snd s) j) as (tj & Et & It); [lia|].
  rewrite Ed, Et. simpl.
  destruct (assign_rect L W (fst s) j (fa dj) Rd) as [Ea Ra];
    [apply Hfa; exact (proj1 (Forall_forall _ _) Rd dj Id) | exact HL | lia |].
  destruct (assign_rect L W (snd s) j (fb tj) Rt) as [Eb Rb];
    [apply Hfb; exact (proj1 (Forall_forall _ _) Rt tj It) | exact HL | lia |].
  rewrite Ea, Eb. simpl. eexists. split; [reflexivity|].
  repeat split; cbn [fst snd]; try assumption; apply length_update_n; assumption.
Qed.

Lemma shift_rot_full {A B} (zA : A) (zB : B) (L n : nat) (dr : Draws) (j : nat)
    (s : batch_pair A B) :
  (0 < L)%nat -> (j < n)%nat ->
  (- Z.of_nat npix <= shift_h dr j <= Z.of_nat npix)%Z ->
  (- Z.of_nat npix <= shift_v dr j <= Z.of_nat npix)%Z ->
  full_batch L L n s ->
  exists s', shift_rot zA zB L L dr j s = inr s' /\ full_batch L L n s'.
Proof.
  intros HL Hj Hh Hv (Hd & Ht & Rd & Rt). unfold shift_rot.
  destruct (index_some (fst s) j) as (dj & Ed & Id); [lia|].
  destruct (index_some (snd s) j) as (tj & Et & It); [lia|].
  rewrite Ed. simpl.
  destruct (assign_rect L L (fst s) j
              (shifted zA L L (shift_h dr j) (shift_v dr j) dj) Rd) as [Ea Ra];
    [apply rect_shifted; try assumption;
     exact (proj1 (Forall_forall _ _) Rd dj Id) | exact HL | lia |].
  rewrite Ea, Et. simpl.
  destruct (assign_rect L L (snd s) j
              (shifted zB L L (shift_h dr j) (shift_v dr j) tj) Rt) as [Eb Rb];
    [apply rect_shifted; try assumption;
     exact (proj1 (Forall_forall _ _) Rt tj It) | exact HL | lia |].
  rewrite Eb. simpl.
  apply (assign_both_full L L n); try assumption.
  - intros m Hm. apply rect_rot90; assumption.
  - intros m Hm. apply rect_rot90; assumption.
  - repeat split; cbn [fst snd]; try assumption; apply length_update_n; assumption.
Qed.

Lemma where_one_bound (a : nat -> Z) (bs j : nat) : In j (where_one a bs) -> (j < bs)%nat.
Proof.
  unfold where_one. intro H. apply filter_In in H. destruct H as [H _].
  apply in_seq in H. lia.
Qed.

(** A batch taken where [bs] images are left, from square images, with
    shifts between [-npix] and [npix]: [bs] transformed pairs of the same
    size. *)
Lemma batch_full {A B} (zA : A) (zB : B) (L bs : nat) (dr : Draws)
    (data : list (image A)) (target : list (image B)) (i : nat) :
  (0 < L)%nat ->
  Forall (rect L L) data -> Forall (rect L L) target ->
  (i + bs <= length data)%nat -> (i + bs <= length target)%nat ->
  (forall j, (j < bs)%nat ->
     (- Z.of_nat npix <= shift_h dr j <= Z.of_nat npix)%Z /\
     (- Z.of_nat npix <= shift_v dr j <= Z.of_nat npix)%Z) ->
  exists b, batch zA zB L L bs dr data target i = inr b /\ full_batch L L bs b.
Proof.
  intros HL Rd Rt Hd Ht Hdr. unfold batch. cbv zeta.
  rewrite <- !Nat2Z.inj_add.
  assert (F0 : full_batch L L bs
                 (py_slice data (Z.of_nat i) (Z.of_nat (i + bs)),
                  py_slice target (Z.of_nat i) (Z.of_nat (i + bs)))).
  { repeat split; simpl.
    - rewrite length_py_slice_inside; lia.
    - rewrite length_py_slice_inside; lia.
    - apply Forall_py_slice, Rd.
    - apply Forall_py_slice, Rt. }
  destruct (rfor_invariant (S := batch_pair A B) (@full_batch A B L L bs) (assign_both fliplr fliplr)
              (where_one (flip_lr dr) bs)
              (py_slice data (Z.of_nat i) (Z.of_nat (i + bs)),
               py_slice target (Z.of_nat i) (Z.of_nat (i + bs))))
    as (s1 & E1 & F1); [|exact F0|].
  { intros j s0 Hj Hs0. apply (assign_both_full L L bs); try assumption.
    - intros m. apply rect_fliplr.
    - intros m. apply rect_fliplr.
    - exact (where_one_bound _ _ _ Hj). }
  rewrite E1. simpl.
  destruct (rfor_invariant (S := batch_pair A B) (@full_batch A B L L bs) (assign_both flipud flipud)
              (where_one (flip_ud dr) bs) s1) as (s2 & E2 & F2); [|exact F1|].
  { intros j s0 Hj Hs0. apply (assign_both_full L L bs); try assumption.
    - intros m. apply rect_flipud.
    - intros m. apply rect_flipud.
    - exact (where_one_bound _ _ _ Hj). }
  rewrite E2. simpl.
  apply (rfor_invariant (S := batch_pair A B) (@full_batch A B L L bs)); [|exact F2].
  intros j s0 Hj Hs0. apply in_seq in Hj.
  apply shift_rot_full; try assumption; try lia; apply Hdr; lia.
Qed.

(* ------------------------------------------------------------------ *)
(** ** The generator as a whole                                         *)
(* ------------------------------------------------------------------ *)

Lemma py_range_multiple (q bs : nat) :
  (0 < bs)%nat ->
  py_range (q * bs) (Z.of_nat bs) = inr (map (fun k => (k * bs)%nat) (seq 0 q)).
Proof.
  intro Hb. unfold py_range.
  replace (Z.of_nat bs =? 0)%Z with false by (symmetry; apply Z.eqb_neq; lia).
  replace (Z.of_nat bs <? 0)%Z with false by (symmetry; apply Z.ltb_ge; lia).
  rewrite Nat2Z.id.
  replace ((q * bs + bs - 1) / bs)%nat with q; [reflexivity|].
  apply (Nat.div_unique _ _ _ (bs - 1)); lia.
Qed.

Lemma generator_step {A B} (zA : A) (zB : B) (data : list (image A))
    (target : list (image B)) (bs : Z) (draws : nat -> Draws) (k : nat) :
  custom_image_generator zA zB data target bs draws (S k) =
  match custom_image_generator zA zB data target bs draws k with
  | (ys, Suspended) =>
      match first_shape data with
      | inl e => (ys, Raised e)
      | inr (L, W) =>
          match py_range (length data) bs with
          | inl e => (ys, Raised e)
          | inr [] => (ys, Hangs)
          | inr (i0 :: rest) =>
              match batch zA zB L W (Z.to_nat bs) (draws k) data target
                          (nth (k mod length (i0 :: rest)) (i0 :: rest) 0%nat) with
              | inl e => (ys, Raised e)
              | inr b => (ys ++ [b], Suspended)
              end
          end
      end
  | (ys, st) => (ys, st)
  end.
Proof.
  simpl. destruct (custom_image_generator zA zB data target bs draws k) as [ys st].
  destruct st; reflexivity.
Qed.

Lemma generator_runs {A B} (zA : A) (zB : B) (data : list (image A))
    (target : list (image B)) (bs : Z) (draws : nat -> Draws) (L W : nat)
    (i0 : nat) (rest : list nat) (P : batch_pair A B -> Prop) :
  first_shape data = inr (L, W) ->
  py_range (length data) bs = inr (i0 :: rest) ->
  (forall k i, In i (i0 :: rest) ->
     exists b, batch zA zB L W (Z.to_nat bs) (draws k) data target i = inr b /\ P b) ->
  forall k, exists ys,
    custom_image_generator zA zB data target bs draws k = (ys, Suspended) /\
    length ys = k /\ Forall P ys.
Proof.
  intros Hs Hr Hb. induction k as [|k IH].
  - exists []. repeat split. constructor.
  - destruct IH as (ys & E & Hl & Hp). rewrite generator_step, E, Hs, Hr.
    destruct (Hb k (nth (k mod length (i0 :: rest)) (i0 :: rest) 0%nat)) as (b & -> & Pb).
    { apply nth_In. apply Nat.mod_upper_bound. discriminate. }
    exists (ys ++ [b]). repeat split.
    + rewrite length_app. simpl. lia.
    + apply Forall_app. split; [exact Hp | constructor; [exact Pb | constructor]].
Qed.

(** X14. When the number of images is a positive multiple of [bs], the
    images are square and every shift drawn lies between [-npix] and [npix],
    the generator never raises and never ends: each call of [next] yields
    [bs] inputs and [bs] targets, all of the size of the originals. *)
Theorem generator_never_stops {A B} (zA : A) (zB : B) (L bs q : nat)
    (data : list (image A)) (target : list (image B)) (draws : nat -> Draws) (k : nat) :
  (0 < L)%nat -> (0 < bs)%nat -> (0 < q)%nat ->
  length data = (q * bs)%nat -> length target = (q * bs)%nat ->
  Forall (rect L L) data -> Forall (rect L L) target ->
  (forall n j, (j < bs)%nat ->
     (- Z.of_nat npix <= shift_h (draws n) j <= Z.of_nat npix)%Z /\
     (- Z.of_nat npix <= shift_v (draws n) j <= Z.of_nat npix)%Z) ->
  exists ys,
    custom_image_generator zA zB data target (Z.of_nat bs) draws k = (ys, Suspended) /\
    length ys = k /\ Forall (full_batch L L bs) ys.
Proof.
  intros HL Hb Hq Hd Ht Rd Rt Hdr.
  assert (Hs : first_shape data = inr (L, L)).
  { destruct data as [|m data]; [simpl in Hd; nia|].
    unfold first_shape, shape. apply Forall_cons_iff in Rd. destruct Rd as [Rm _].
    rewrite (rect_width _ _ _ Rm HL). destruct Rm as [-> _]. reflexivity. }
  assert (Hr : py_range (length data) (Z.of_nat bs)
               = inr (map (fun n => (n * bs)%nat) (seq 0 q))).
  { rewrite Hd. apply py_range_multiple, Hb. }
  destruct q as [|q]; [lia|].
  change (seq 0 (S q)) with (0%nat :: seq 1 q) in Hr. simpl map in Hr.
  apply (generator_runs zA zB data target (Z.of_nat bs) draws L L _ _
           (full_batch L L bs) Hs Hr).
  intros n i Hi. rewrite Nat2Z.id.
  assert (Hin : In i (map (fun n => (n * bs)%nat) (seq 0 (S q)))) by exact Hi.
  apply in_map_iff in Hin. destruct Hin as (c & <- & Hc). apply in_seq in Hc.
  apply batch_full; try assumption; try nia. apply Hdr.
Qed.

Lemma assign_both_length {A B} (fa : image A -> image A) (fb : image B -> image B)
    (j : nat) (s s' : batch_pair A B) :
  assign_both fa fb j s = inr s' -> length (fst s') = length (fst s).
Proof.
  unfold assign_both.
  destruct (index (fst s) (Z.of_nat j)) as [e | dj]; [discriminate|]. simpl.
  destruct (index (snd s) (Z.of_nat j)) as [e | tj]; [discriminate|]. simpl.
  destruct (assign (fst s) j (fa dj)) as [e | d'] eqn:Ed; [discriminate|]. simpl.
  destruct (assign (snd s) j (fb tj)) as [e | t']; [discriminate|]. simpl.
  intro H. inversion H; subst. simpl. exact (assign_length _ _ _ _ Ed).
Qed.

Lemma shift_rot_length {A B} (zA : A) (zB : B) (L W : nat) (dr : Draws) (j : nat)
    (s s' : batch_pair A B) :
  shift_rot zA zB L W dr j s = inr s' -> length (fst s') = length (fst s).
Proof.
  unfold shift_rot.
  destruct (index (fst s) (Z.of_nat j)) as [e | dj]; [discriminate|]. simpl.
  destruct (assign (fst s) j _) as [e | d'] eqn:Ed; [discriminate|]. simpl.
  destruct (index (snd s) (Z.of_nat j)) as [e | tj]; [discriminate|]. simpl.
  destruct (assign (snd s) j _) as [e | t']; [discriminate|]. simpl.
  intro H. apply assign_both_length in H. simpl in H.
  rewrite H. exact (assign_length _ _ _ _ Ed).
Qed.

Lemma rfor_length {X S} (len : S -> nat) (f : X -> S -> result S) (l : list X) (s s' : S) :
  (forall a s0 s1, f a s0 = inr s1 -> len s1 = len s0) ->
  rfor f l s = inr s' -> len s' = len s.
Proof.
  intro Hf. revert s. induction l as [|a l IH]; intros s H; simpl in H.
  - inversion H. reflexivity.
  - destruct (f a s) as [e | s1] eqn:E; [discriminate|]. simpl in H.
    rewrite (IH _ H). exact (Hf _ _ _ E).
Qed.

Lemma rfor_fails {X S} (len : S -> nat) (f : X -> S -> result S) (l : list X)
    (s : S) (j0 : X) :
  (forall a s0 s1, f a s0 = inr s1 -> len s1 = len s0) ->
  In j0 l ->
  (forall s0, len s0 = len s -> exists e, f j0 s0 = inl e) ->
  exists e, rfor f l s = inl e.
Proof.
  intros Hf Hin Hfail. revert s Hfail.
  induction l as [|a l IH]; intros s Hfail; [destruct Hin|]. simpl.
  destruct (f a s) as [e | s1] eqn:E; simpl.
  - exists e. reflexivity.
  - destruct Hin as [-> | Hin].
    + destruct (Hfail s eq_refl) as [e He]. congruence.
    + apply (IH Hin). intros s0 Hs0. apply Hfail.
      rewrite Hs0. exact (Hf _ _ _ E).
Qed.

(** X15. A batch cut short by the end of the data always raises: when
    fewer than [bs] images are left at the loop index, no pair is yielded,
    whatever the draws, the targets and the size of the images. *)
Theorem partial_batch_raises {A B} (zA : A) (zB : B) (L W bs : nat) (dr : Draws)
    (data : list (image A)) (target : list (image B)) (i : nat) :
  (i < length data)%nat -> (length data < i + bs)%nat ->
  exists e, batch zA zB L W bs dr data target i = inl e.
Proof.
  intros Hi Hn. unfold batch. cbv zeta. rewrite <- !Nat2Z.inj_add.
  set (s0 := (py_slice data (Z.of_nat i) (Z.of_nat (i + bs)),
              py_slice target (Z.of_nat i) (Z.of_nat (i + bs))) : batch_pair A B).
  assert (H0 : length (fst s0) = (length data - i)%nat).
  { unfold s0. simpl. rewrite length_py_slice_nat. lia. }
  destruct (rfor (assign_both fliplr fliplr) (where_one (flip_lr dr) bs) s0)
    as [e | s1] eqn:E1; [exists e; reflexivity|]. simpl.
  assert (H1 : length (fst s1) = length (fst s0)).
  { apply (rfor_length (fun s : batch_pair A B => length (fst s)) _ _ _ _
             (assign_both_length fliplr fliplr) E1). }
  destruct (rfor (assign_both flipud flipud) (where_one (flip_ud dr) bs) s1)
    as [e | s2] eqn:E2; [exists e; reflexivity|]. simpl.
  assert (H2 : length (fst s2) = length (fst s1)).
  { apply (rfor_length (fun s : batch_pair A B => length (fst s)) _ _ _ _
             (assign_both_length flipud flipud) E2). }
  apply (rfor_fails (fun s : batch_pair A B => length (fst s)) _ _ _
           (length data - i)%nat).
  - intros a sa sb. apply shift_rot_length.
  - apply in_seq. lia.
  - intros sa Hsa. unfold shift_rot.
    rewrite index_none by lia. exists IndexError. reflexivity.
Qed.

Lemma partial_batch_raises_witness :
  exists e, batch [0] 0 2 2 2 (mkDraws (fun _ => 0%Z) (fun _ => 0%Z) (fun _ => 0%Z)
                                (fun _ => 0%Z) (fun _ => 0%Z))
                  [ExG.img_a; ExG.img_b; ExG.img_a] [ExG.tgt_a; ExG.tgt_b; ExG.tgt_a]
                  2 = inl e.
Proof.
  apply partial_batch_raises; simpl; lia.
Defined.

(** X16. Before the first pair: on empty data the first call of [next]
    raises [IndexError]; on data that is not empty, [bs = 0] raises
    [ValueError] and a negative [bs] makes the call run forever; no later
    call yields anything. *)
Theorem generator_startup {A B} (zA : A) (zB : B) (data : list (image A))
    (target : list (image B)) (bs : Z) (draws : nat -> Draws) (k : nat) :
  (data = [] ->
   custom_image_generator zA zB data target bs draws (S k) = ([], Raised IndexError)) /\
  (data <> [] -> bs = 0%Z ->
   custom_image_generator zA zB data target bs draws (S k) = ([], Raised ValueError)) /\
  (data <> [] -> (bs < 0)%Z ->
   custom_image_generator zA zB data target bs draws (S k) = ([], Hangs)).
Proof.
  split; [|split].
  - intros ->. induction k as [|k IH]; [reflexivity|].
    rewrite generator_step, IH. reflexivity.
  - intros Hd ->. destruct data as [|m data]; [congruence|].
    induction k as [|k IH]; [reflexivity|].
    rewrite generator_step, IH. reflexivity.
  - intros Hd Hb. destruct data as [|m data]; [congruence|].
    assert (Hr : py_range (length (m :: data)) bs = inr []).
    { unfold py_range.
      replace (bs =? 0)%Z with false by (symmetry; apply Z.eqb_neq; lia).
      replace (bs <? 0)%Z with true by (symmetry; apply Z.ltb_lt; lia).
      reflexivity. }
    induction k as [|k IH].
    + rewrite generator_step. simpl custom_image_generator.
      unfold first_shape. rewrite Hr. reflexivity.
    + rewrite generator_step, IH. reflexivity.
Qed.

(* ------------------------------------------------------------------ *)
(** ** Inputs and targets receive the same transformation               *)
(* ------------------------------------------------------------------ *)

Lemma width_map_image {A B} (g : A -> B) (m : image A) :
  width (map_image g m) = width m.
Proof. destruct m as [|row m]; [reflexivity|]. apply length_map. Qed.

Lemma py_slice_map {X Y} (f : X -> Y) (l : list X) (a b : Z) :
  py_slice (map f l) a b = map f (py_slice l a b).
Proof.
  unfold py_slice. rewrite length_map, skipn_map, firstn_map. reflexivity.
Qed.

Lemma fliplr_map_image {A B} (g : A -> B) (m : image A) :
  fliplr (map_image g m) = map_image g (fliplr m).
Proof.
  unfold fliplr, map_image. rewrite !map_map. apply map_ext.
  intro row. symmetry. apply map_rev.
Qed.

Lemma flipud_map_image {A B} (g : A -> B) (m : image A) :
  flipud (map_image g m) = map_image g (flipud m).
Proof. unfold flipud, map_image. symmetry. apply map_rev. Qed.

Lemma map_repeat {X Y} (f : X -> Y) (a : X) (n : nat) :
  map f (repeat a n) = repeat (f a) n.
Proof. induction n; simpl; [reflexivity | rewrite IHn; reflexivity]. Qed.

Lemma pad_map_image {A B} (g : A -> B) (p : nat) (z : A) (m : image A) :
  pad p (g z) (map_image g m) = map_image g (pad p z m).
Proof.
  unfold pad. rewrite width_map_image. unfold map_image.
  rewrite !map_app, !map_repeat, !map_map. f_equal. f_equal.
  apply map_ext. intro row. rewrite !map_app, !map_repeat. reflexivity.
Qed.

Lemma crop_map_image {A B} (g : A -> B) (m : image A) (r0 r1 c0 c1 : Z) :
  crop (map_image g m) r0 r1 c0 c1 = map_image g (crop m r0 r1 c0 c1).
Proof.
  unfold crop, map_image. rewrite py_slice_map, !map_map. apply map_ext.
  intro row. apply py_slice_map.
Qed.

Lemma shifted_map_image {A B} (g : A -> B) (z : A) (L W : nat) (h v : Z) (m : image A) :
  shifted (g z) L W h v (map_image g m) = map_image g (shifted z L W h v m).
Proof. unfold shifted. rewrite pad_map_image. apply crop_map_image. Qed.

Lemma zipcons_map {A B} (g : A -> B) (row : list A) (acc : list (list A)) :
  zipcons (map g row) (map (map g) acc) = map (map g) (zipcons row acc).
Proof.
  unfold zipcons. revert acc. induction row as [|a row IH]; intros [|c acc]; simpl;
    try reflexivity.
  rewrite IH. reflexivity.
Qed.

Lemma transpose_map_image {A B} (g : A -> B) (m : image A) :
  transpose (map_image g m) = map_image g (transpose m).
Proof.
  rewrite !transpose_zipcons, width_map_image.
  generalize (width m) as w. intro w. unfold map_image.
  induction m as [|row m IH]; simpl.
  - rewrite map_repeat. reflexivity.
  - rewrite IH. apply zipcons_map.
Qed.

Lemma rot90_map_image {A B} (g : A -> B) (m : image A) (k : Z) :
  rot90 (map_image g m) k = map_image g (rot90 m k).
Proof.
  unfold rot90.
  destruct (k mod 4)%Z as [|p|p]; [reflexivity | |];
    [destruct p as [p|p|]; [| destruct p as [p|p|] |] |];
    first [ rewrite transpose_map_image; apply fliplr_map_image
          | rewrite flipud_map_image; apply fliplr_map_image
          | rewrite fliplr_map_image; apply transpose_map_image ].
Qed.

Lemma stretch_map {X Y} (f : X -> Y) (n : nat) (l : list X) :
  stretch n (map f l) = option_map (map f) (stretch n l).
Proof.
  unfold stretch. rewrite length_map.
  destruct (length l =? n)%nat; [reflexivity|].
  destruct l as [|a [|b l]]; simpl; try reflexivity.
  rewrite map_repeat. reflexivity.
Qed.

Lemma all_some_map {X Y} (f : X -> Y) (l : list (option X)) :
  all_some (map (option_map f) l) = option_map (map f) (all_some l).
Proof.
  induction l as [|[a|] l IH]; simpl; try reflexivity.
  rewrite IH. destruct (all_some l); reflexivity.
Qed.

Lemma broadcast_map_image {A B} (g : A -> B) (old x : image A) :
  broadcast (map_image g old) (map_image g x) =
  option_map (map_image g) (broadcast old x).
Proof.
  unfold broadcast. rewrite width_map_image.
  unfold map_image at 1 2. rewrite length_map, stretch_map.
  destruct (stretch (length old) x) as [rows|]; simpl; [|reflexivity].
  rewrite map_map.
  rewrite (map_ext (fun row => stretch (width old) (map g row))
                   (fun row => option_map (map g) (stretch (width old) row)))
    by (intro row; apply stretch_map).
  rewrite <- (map_map (stretch (width old)) (option_map (map g))).
  apply all_some_map.
Qed.

Lemma assign_map_image {A B} (g : A -> B) (d : list (image A)) (j : nat) (x : image A) :
  assign (map (map_image g) d) j (map_image g x) =
  match assign d j x with
  | inl e => inl e
  | inr d' => inr (map (map_image g) d')
  end.
Proof.
  unfold assign. rewrite nth_error_map.
  destruct (nth_error d j) as [old|]; cbn [option_map]; [|reflexivity].
  rewrite broadcast_map_image.
  destruct (broadcast old x) as [x'|]; cbn [option_map]; [|reflexivity].
  rewrite map_app, firstn_map, map_cons, skipn_map. reflexivity.
Qed.

Lemma index_map {X Y} (f : X -> Y) (l : list X) (j : nat) :
  index (map f l) (Z.of_nat j) =
  match index l (Z.of_nat j) with
  | inl e => inl e
  | inr a => inr (f a)
  end.
Proof.
  rewrite !index_nat, nth_error_map. destruct (nth_error l j); reflexivity.
Qed.

Lemma assign_both_aligned {A B} (g : A -> B) (fa : image A -> image A)
    (fb : image B -> image B) (j : nat) (s s' : batch_pair A B) :
  (forall m, fb (map_image g m) = map_image g (fa m)) ->
  assign_both fa fb j s = inr s' -> aligned g s -> aligned g s'.
Proof.
  intros Hf H Hs. destruct s as [d t]. unfold aligned in Hs. simpl in Hs. subst t.
  unfold assign_both in H. cbn [fst snd] in H.
  change (map (map (map g)) d) with (map (map_image g) d) in H.
  rewrite index_map in H.
  destruct (index d (Z.of_nat j)) as [e | dj]; [discriminate|]. simpl in H.
  destruct (assign d j (fa dj)) as [e | d'] eqn:Ed; [discriminate|]. simpl in H.
  rewrite Hf, assign_map_image, Ed in H. simpl in H.
  inversion H. reflexivity.
Qed.

Lemma shift_rot_aligned {A B} (g : A -> B) (zA : A) (L W : nat) (dr : Draws) (j : nat)
    (s s' : batch_pair A B) :
  shift_rot zA (g zA) L W dr j s = inr s' -> aligned g s -> aligned g s'.
Proof.
  intros H Hs. destruct s as [d t]. unfold aligned in Hs. simpl in Hs. subst t.
  unfold shift_rot in H. cbn [fst snd] in H.
  change (map (map (map g)) d) with (map (map_image g) d) in H.
  destruct (index d (Z.of_nat j)) as [e | dj] eqn:Ei; [discriminate|]. simpl in H.
  destruct (assign d j (shifted zA L W (shift_h dr j) (shift_v dr j) dj))
    as [e | d'] eqn:Ed; [discriminate|]. simpl in H.
  rewrite index_map, Ei in H. simpl in H.
  rewrite shifted_map_image, assign_map_image, Ed in H. simpl in H.
  apply (assign_both_aligned g _ _ _ _ _ (fun m => rot90_map_image g m (rot dr j)) H).
  reflexivity.
Qed.

Lemma rfor_preserves {X S} (P : S -> Prop) (f : X -> S -> result S) (l : list X) (s s' : S) :
  (forall a s0 s1, f a s0 = inr s1 -> P s0 -> P s1) ->
  rfor f l s = inr s' -> P s -> P s'.
Proof.
  intro Hf. revert s. induction l as [|a l IH]; intros s H Hs; simpl in H.
  - inversion H; subst. exact Hs.
  - destruct (f a s) as [e | s1] eqn:E; [discriminate|]. simpl in H.
    apply (IH _ H). exact (Hf _ _ _ E Hs).
Qed.

(** X17. An input and its target always receive the same flips, the same
    shift and the same rotation: when the targets are the image of the
    inputs under a pixel-wise function that sends the zero pixel to zero,
    so are the targets of every yielded pair. *)
Theorem same_transformation {A B} (g : A -> B) (zA : A) (zB : B) (L W bs : nat)
    (dr : Draws) (data : list (image A)) (i : nat) (d : list (image A))
    (t : list (image B)) :
  g zA = zB ->
  batch zA zB L W bs dr data (map (map (map g)) data) i = inr (d, t) ->
  t = map (map (map g)) d.
Proof.
  intros <- H. unfold batch in H. cbv zeta in H.
  change (map (map (map g)) data) with (map (map_image g) data) in H.
  rewrite py_slice_map in H.
  set (s0 := (py_slice data (Z.of_nat i) (Z.of_nat i + Z.of_nat bs),
              map (map_image g) (py_slice data (Z.of_nat i) (Z.of_nat i + Z.of_nat bs)))
             : batch_pair A B) in H.
  assert (A0 : aligned g s0) by reflexivity.
  destruct (rfor (assign_both fliplr fliplr) (where_one (flip_lr dr) bs) s0)
    as [e | s1] eqn:E1; [discriminate|]. simpl in H.
  assert (A1 : aligned g s1).
  { apply (rfor_preserves (aligned g) _ _ _ _
             (fun j sa sb => assign_both_aligned g fliplr fliplr j sa sb
                               (fliplr_map_image g)) E1 A0). }
  destruct (rfor (assign_both flipud flipud) (where_one (flip_ud dr) bs) s1)
    as [e | s2] eqn:E2; [discriminate|]. simpl in H.
  assert (A2 : aligned g s2).
  { apply (rfor_preserves (aligned g) _ _ _ _
             (fun j sa sb => assign_both_aligned g flipud flipud j sa sb
                               (flipud_map_image g)) E2 A1). }
  apply (rfor_preserves (aligned g) _ _ _ _
           (fun j sa sb => shift_rot_aligned g zA L W dr j sa sb) H A2).
Qed.

Lemma same_transformation_witness :
  ExG.yielded =
  inr ([ [[[1]; [3]]; [[2]; [4]]]; [[[6]; [0]]; [[8]; [0]]] ],
       [ [[1; 3]; [2; 4]]; [[6; 0]; [8; 0]] ]) /\
  [ [[1; 3]; [2; 4]]; [[6; 0]; [8; 0]] ] =
  map (map (map ExG.channel0)) [ [[[1]; [3]]; [[2]; [4]]]; [[[6]; [0]]; [[8]; [0]]] ].
Proof.
  split; [vm_compute; reflexivity|].
  apply (same_transformation ExG.channel0 [0] 0 2 2 2 (ExG.draws 0)
           [ExG.img_a; ExG.img_b] 0);
    [reflexivity | vm_compute; reflexivity].
Defined.

(* ------------------------------------------------------------------ *)
(** ** Draws that change nothing                                        *)
(* ------------------------------------------------------------------ *)

Lemma skipn_app_exact {X} (a b : list X) : skipn (length a) (a ++ b) = b.
Proof. induction a as [|x a IH]; simpl; [reflexivity | exact IH]. Qed.

Lemma firstn_app_exact {X} (a b : list X) : firstn (length a) (a ++ b) = a.
Proof. induction a as [|x a IH]; simpl; [reflexivity | rewrite IH; reflexivity]. Qed.

Lemma middle_slice {X} (a b c : list X) (p n : nat) :
  length a = p -> length b = n ->
  py_slice (a ++ b ++ c) (Z.of_nat p) (Z.of_nat (n + p)) = b.
Proof.
  intros Ha Hb. rewrite py_slice_inside.
  - replace (n + p - p)%nat with n by lia.
    rewrite <- Ha, skipn_app_exact, <- Hb. apply firstn_app_exact.
  - lia.
  - rewrite !length_app. lia.
Qed.

Lemma shifted_zero {X} (z : X) (L W : nat) (m : image X) :
  rect L W m -> shifted z L W 0 0 m = m.
Proof.
  intros [Hl Hr]. unfold shifted, crop, pad.
  replace (Z.of_nat npix + 0)%Z with (Z.of_nat npix) by lia.
  replace (Z.of_nat L + 0 + Z.of_nat npix)%Z with (Z.of_nat (L + npix)) by lia.
  replace (Z.of_nat W + 0 + Z.of_nat npix)%Z with (Z.of_nat (W + npix)) by lia.
  rewrite middle_slice; [|apply repeat_length | rewrite length_map; exact Hl].
  rewrite map_map. rewrite <- (map_id m) at 2. apply map_ext_in.
  intros row Hrow. apply middle_slice; [apply repeat_length|].
  exact (proj1 (Forall_forall _ _) Hr row Hrow).
Qed.

Lemma update_same {X} (d : list X) (j : nat) (x : X) :
  nth_error d j = Some x -> firstn j d ++ x :: skipn (S j) d = d.
Proof.
  revert j. induction d as [|a d IH]; intros [|j] H; simpl in H; try discriminate.
  - inversion H. reflexivity.
  - change (a :: (firstn j d ++ x :: skipn (S j) d) = a :: d).
    rewrite (IH j H). reflexivity.
Qed.

Lemma assign_same {A} (L W : nat) (d : list (image A)) (j : nat) (x : image A) :
  Forall (rect L W) d -> (0 < L)%nat -> nth_error d j = Some x -> assign d j x = inr d.
Proof.
  intros Hd HL Hx. unfold assign. rewrite Hx.
  assert (Rx : rect L W x) by exact (proj1 (Forall_forall _ _) Hd x (nth_error_In _ _ Hx)).
  rewrite (broadcast_rect L W x x Rx Rx HL). cbv beta iota.
  rewrite (update_same d j x Hx). reflexivity.
Qed.

Lemma rot90_zero {A} (m : image A) (k : Z) : (k mod 4 = 0)%Z -> rot90 m k = m.
Proof. intro H. unfold rot90. rewrite H. reflexivity. Qed.

Lemma shift_rot_identity {A B} (zA : A) (zB : B) (L W n : nat) (dr : Draws) (j : nat)
    (s : batch_pair A B) :
  (0 < L)%nat -> (j < n)%nat -> full_batch L W n s ->
  shift_h dr j = 0%Z -> shift_v dr j = 0%Z -> (rot dr j mod 4 = 0)%Z ->
  shift_rot zA zB L W dr j s = inr s.
Proof.
  intros HL Hj (Hd & Ht & Rd & Rt) Hh Hv Hrot. destruct s as [d t].
  simpl in Hd, Ht, Rd, Rt. unfold shift_rot, assign_both. cbn [fst snd].
  rewrite Hh, Hv.
  destruct (nth_error d j) as [dj|] eqn:Ed; [|apply nth_error_None in Ed; lia].
  destruct (nth_error t j) as [tj|] eqn:Et; [|apply nth_error_None in Et; lia].
  rewrite (proj2 (index_nth_error d j dj) Ed). simpl.
  rewrite shifted_zero
    by exact (proj1 (Forall_forall _ _) Rd dj (nth_error_In _ _ Ed)).
  rewrite (assign_same L W d j dj Rd HL Ed). simpl.
  rewrite (proj2 (index_nth_error t j tj) Et). simpl.
  rewrite shifted_zero
    by exact (proj1 (Forall_forall _ _) Rt tj (nth_error_In _ _ Et)).
  rewrite (assign_same L W t j tj Rt HL Et). simpl.
  rewrite (proj2 (index_nth_error d j dj) Ed). simpl.
  rewrite (proj2 (index_nth_error t j tj) Et). simpl.
  rewrite !rot90_zero by exact Hrot.
  rewrite (assign_same L W d j dj Rd HL Ed). simpl.
  rewrite (assign_same L W t j tj Rt HL Et). reflexivity.
Qed.

Lemma rfor_unchanged {X S} (f : X -> S -> result S) (l : list X) (s : S) :
  (forall a, In a l -> f a s = inr s) -> rfor f l s = inr s.
Proof.
  induction l as [|a l IH]; intro H; simpl; [reflexivity|].
  rewrite (H a (or_introl eq_refl)). simpl. apply IH.
  intros b Hb. apply H. right. exact Hb.
Qed.

Lemma where_one_none (a : nat -> Z) (bs : nat) :
  (forall j, (j < bs)%nat -> a j <> 1%Z) -> where_one a bs = [].
Proof.
  intro H. unfold where_one.
  assert (G : forall s, (forall j, In j (seq s bs) -> a j <> 1%Z) ->
              filter (fun j => (a j =? 1)%Z) (seq s bs) = []).
  { induction bs as [|n IH]; intros s Hs; simpl; [reflexivity|].
    replace (a s =? 1)%Z with false
      by (symmetry; apply Z.eqb_neq, Hs; left; reflexivity).
    apply IH; [intros j Hj; apply H; lia|].
    intros j Hj. apply Hs. right. exact Hj. }
  apply G. intros j Hj. apply in_seq in Hj. apply H. lia.
Qed.

(** X18. With no flip drawn, all shifts zero and all rotations a multiple
    of four quarter turns, a full batch of images of one size, square or
    not, is yielded as it was cut from the data. *)
Theorem neutral_draws {A B} (zA : A) (zB : B) (L W bs : nat) (dr : Draws)
    (data : list (image A)) (target : list (image B)) (i : nat) :
  (0 < L)%nat ->
  Forall (rect L W) data -> Forall (rect L W) target ->
  (i + bs <= length data)%nat -> (i + bs <= length target)%nat ->
  (forall j, (j < bs)%nat ->
     flip_lr dr j <> 1%Z /\ flip_ud dr j <> 1%Z /\
     shift_h dr j = 0%Z /\ shift_v dr j = 0%Z /\ (rot dr j mod 4 = 0)%Z) ->
  batch zA zB L W bs dr data target i =
  inr (firstn bs (skipn i data), firstn bs (skipn i target)).
Proof.
  intros HL Rd Rt Hd Ht Hdr. unfold batch. cbv zeta.
  rewrite <- !Nat2Z.inj_add, !py_slice_inside by lia.
  replace (i + bs - i)%nat with bs by lia.
  rewrite !where_one_none by (intros j Hj; apply Hdr; exact Hj).
  simpl rfor at 1 2. cbn [rbind].
  apply rfor_unchanged. intros j Hj. apply in_seq in Hj.
  destruct (Hdr j) as (_ & _ & Hh & Hv & Hrot); [lia|].
  apply (shift_rot_identity zA zB L W bs); try assumption; [lia|].
  repeat split; cbn [fst snd].
  - rewrite length_firstn, length_skipn. lia.
  - rewrite length_firstn, length_skipn. lia.
  - apply Forall_firstn_skipn, Forall_firstn_skipn, Rd.
  - apply Forall_firstn_skipn, Forall_firstn_skipn, Rt.
Qed.

Lemma neutral_draws_witness :
  batch [0] 0 2 2 1 (mkDraws (fun _ => 0%Z) (fun _ => 0%Z) (fun _ => 0%Z)
                             (fun _ => 0%Z) (fun _ => 4%Z))
        [ExG.img_a; ExG.img_b] [ExG.tgt_a; ExG.tgt_b] 1 =
  inr ([ExG.img_b], [ExG.tgt_b]).
Proof.
  apply (neutral_draws [0] 0 2 2 1 _ [ExG.img_a; ExG.img_b] [ExG.tgt_a; ExG.tgt_b] 1).
  - lia.
  - repeat constructor.
  - repeat constructor.
  - simpl. lia.
  - simpl. lia.
  - intros j _. simpl. repeat split; discriminate.
Defined.

Lemma generator_never_stops_witness :
  exists ys,
    custom_image_generator [0] 0 [ExG.img_a; ExG.img_b] [ExG.tgt_a; ExG.tgt_b]
                           1 ExG.draws 5 = (ys, Suspended) /\
    length ys = 5%nat /\ Forall (full_batch 2 2 1) ys.
Proof.
  apply (generator_never_stops [0] 0 2 1 2 [ExG.img_a; ExG.img_b]
           [ExG.tgt_a; ExG.tgt_b] ExG.draws 5); try lia; try reflexivity.
  - repeat constructor.
  - repeat constructor.
  - intros n j Hj. assert (j = 0%nat) by lia. subst j. simpl. lia.
Defined.

(* ------------------------------------------------------------------ *)
(** ** Images that are not square                                       *)
(* ------------------------------------------------------------------ *)

Lemma all_some_none {X} (l : list (option X)) : In None l -> all_some l = None.
Proof.
  induction l as [|[a|] l IH]; intro H; simpl.
  - destruct H.
  - destruct H as [H | H]; [discriminate|]. rewrite (IH H). reflexivity.
  - reflexivity.
Qed.

Lemma broadcast_mismatch {A} (L W : nat) (old x : image A) :
  rect L W old -> rect W L x -> (0 < L)%nat -> (0 < W)%nat -> L <> W ->
  broadcast old x = None.
Proof.
  intros Ho [Hxl Hxr] HL HW Hne. unfold broadcast, stretch at 1.
  rewrite (rect_width _ _ _ Ho HL). destruct Ho as [Hol _]. rewrite Hol, Hxl.
  replace (W =? L)%nat with false by (symmetry; apply Nat.eqb_neq; lia).
  destruct x as [|a [|b x]]; try reflexivity.
  apply all_some_none. apply in_map_iff. exists a. split.
  - unfold stretch. apply Forall_cons_iff in Hxr. destruct Hxr as [Ha _].
    simpl in Hxl. subst W. rewrite Ha.
    replace (L =? 1)%nat with false by (symmetry; apply Nat.eqb_neq; lia).
    destruct a as [|p [|p' a]]; simpl in Ha; try reflexivity. lia.
  - destruct L as [|L]; [lia|]. left. reflexivity.
Qed.

Lemma rot90_odd {A} (m : image A) (k : Z) :
  (k mod 2 = 1)%Z ->
  rot90 m k = transpose (fliplr m) \/ rot90 m k = fliplr (transpose m).
Proof.
  intro Hk. unfold rot90.
  assert (H4 : (k mod 4 = 1 \/ k mod 4 = 3)%Z).
  { pose proof (Z.div_mod k 4 ltac:(lia)) as E4.
    pose proof (Z.mod_pos_bound k 4 ltac:(lia)) as B4.
    pose proof (Z.div_mod k 2 ltac:(lia)) as E2.
    rewrite Hk in E2. lia. }
  destruct H4 as [-> | ->]; auto.
Qed.

Lemma rect_rot90_odd {A} (L W : nat) (m : image A) (k : Z) :
  rect L W m -> (0 < L)%nat -> (k mod 2 = 1)%Z -> rect W L (rot90 m k).
Proof.
  intros Hm HL Hk. destruct (rot90_odd m k Hk) as [-> | ->].
  - apply rect_transpose; [apply rect_fliplr, Hm | exact HL].
  - apply rect_fliplr, rect_transpose; assumption.
Qed.

Lemma index_head {X} (a : X) (d : list X) : index (a :: d) (Z.of_nat 0) = inr a.
Proof. reflexivity. Qed.

Lemma assign_head {A} (L W : nat) (old x : image A) (d : list (image A)) :
  rect L W old -> rect L W x -> (0 < L)%nat -> assign (old :: d) 0 x = inr (x :: d).
Proof.
  intros Ho Hx HL. unfold assign. cbn [nth_error].
  rewrite (broadcast_rect L W old x Ho Hx HL). reflexivity.
Qed.

Lemma assign_head_mismatch {A} (old x : image A) (d : list (image A)) :
  broadcast old x = None -> assign (old :: d) 0 x = inl ValueError.
Proof. intro H. unfold assign. cbn [nth_error]. rewrite H. reflexivity. Qed.

(** X19. Images that are not square do not survive a quarter turn: when
    the images are [L] by [W] with [L <> W] and the rotation drawn for the
    first pair of a full batch is odd, the batch raises [ValueError], at
    the assignment of the rotated input. *)
Theorem nonsquare_rotation_raises {A B} (zA : A) (zB : B) (L W bs : nat) (dr : Draws)
    (data : list (image A)) (target : list (image B)) (i : nat) :
  (0 < L)%nat -> (0 < W)%nat -> L <> W -> (0 < bs)%nat ->
  Forall (rect L W) data -> Forall (rect L W) target ->
  (i + bs <= length data)%nat -> (i + bs <= length target)%nat ->
  (- Z.of_nat npix <= shift_h dr 0 <= Z.of_nat npix)%Z ->
  (- Z.of_nat npix <= shift_v dr 0 <= Z.of_nat npix)%Z ->
  (rot dr 0 mod 2 = 1)%Z ->
  batch zA zB L W bs dr data target i = inl ValueError.
Proof.
  intros HL HW Hne Hb Rd Rt Hd Ht Hh Hv Hrot. unfold batch. cbv zeta.
  rewrite <- !Nat2Z.inj_add.
  assert (F0 : full_batch L W bs
                 (py_slice data (Z.of_nat i) (Z.of_nat (i + bs)),
                  py_slice target (Z.of_nat i) (Z.of_nat (i + bs)))).
  { repeat split; simpl.
    - rewrite length_py_slice_inside; lia.
    - rewrite length_py_slice_inside; lia.
    - apply Forall_py_slice, Rd.
    - apply Forall_py_slice, Rt. }
  destruct (rfor_invariant (S := batch_pair A B) (@full_batch A B L W bs)
              (assign_both fliplr fliplr) (where_one (flip_lr dr) bs)
              (py_slice data (Z.of_nat i) (Z.of_nat (i + bs)),
               py_slice target (Z.of_nat i) (Z.of_nat (i + bs))))
    as (s1 & E1 & F1); [|exact F0|].
  { intros j s0 Hj Hs0. apply (assign_both_full L W bs); try assumption.
    - intros m. apply rect_fliplr.
    - intros m. apply rect_fliplr.
    - exact (where_one_bound _ _ _ Hj). }
  rewrite E1. simpl.
  destruct (rfor_invariant (S := batch_pair A B) (@full_batch A B L W bs)
              (assign_both flipud flipud) (where_one (flip_ud dr) bs) s1)
    as (s2 & E2 & F2); [|exact F1|].
  { intros j s0 Hj Hs0. apply (assign_both_full L W bs); try assumption.
    - intros m. apply rect_flipud.
    - intros m. apply rect_flipud.
    - exact (where_one_bound _ _ _ Hj). }
  rewrite E2. simpl.
  destruct bs as [|bs]; [lia|].
  change (seq 0 (S bs)) with (0%nat :: seq 1 bs). simpl rfor.
  assert (E : shift_rot zA zB L W dr 0 s2 = inl ValueError); [|rewrite E; reflexivity].
  destruct F2 as (Hd2 & Ht2 & Rd2 & Rt2). destruct s2 as [d t].
  simpl in Hd2, Ht2, Rd2, Rt2.
  destruct d as [|dj d]; [discriminate|]. destruct t as [|tj t]; [discriminate|].
  apply Forall_cons_iff in Rd2. destruct Rd2 as [Rdj Rd2].
  apply Forall_cons_iff in Rt2. destruct Rt2 as [Rtj Rt2].
  pose proof (rect_shifted zA L W _ _ dj Rdj HL Hh Hv) as Sd.
  pose proof (rect_shifted zB L W _ _ tj Rtj HL Hh Hv) as St.
  unfold shift_rot, assign_both. cbn [fst snd].
  rewrite !index_head. cbn [rbind].
  rewrite (assign_head L W dj _ d Rdj Sd HL). cbn [rbind].
  rewrite (assign_head L W tj _ t Rtj St HL). cbn [rbind fst snd].
  rewrite !index_head. cbn [rbind].
  rewrite (assign_head_mismatch _ _ d
             (broadcast_mismatch L W _ _ Sd (rect_rot90_odd L W _ _ Sd HL Hrot)
                                 HL HW Hne)).
  reflexivity.
Qed.

Lemma nonsquare_rotation_raises_witness :
  batch [0] 0 1 2 1 (mkDraws (fun _ => 0%Z) (fun _ => 0%Z) (fun _ => 0%Z)
                             (fun _ => 0%Z) (fun _ => 1%Z))
        [ [[[1]; [2]]] ] [ [[1; 2]] ] 0 = inl ValueError.
Proof.
  apply (nonsquare_rotation_raises [0] 0 1 2 1); try (simpl; lia).
  - repeat constructor.
  - repeat constructor.
  - reflexivity.
Defined.

(* ------------------------------------------------------------------ *)
(** ** What the shift does to a pixel                                   *)
(* ------------------------------------------------------------------ *)

Lemma nth_repeat_lt {X} (a d : X) (n i : nat) : (i < n)%nat -> nth i (repeat a n) d = a.
Proof.
  revert i. induction n as [|n IH]; intros [|i] H; simpl; try lia; [reflexivity|].
  apply IH. lia.
Qed.

Lemma nth_repeat_any {X} (a : X) (n i : nat) : nth i (repeat a n) a = a.
Proof.
  destruct (Nat.lt_ge_cases i n) as [H | H].
  - apply nth_repeat_lt, H.
  - apply nth_overflow. rewrite repeat_length. exact H.
Qed.

(** An entry of a list between two runs of a filler. *)
Lemma nth_sandwich {X} (a d : X) (p : nat) (l : list X) (i : nat) :
  nth i (repeat a p ++ l ++ repeat a p) d =
  if ((p <=? i) && (i <? p + length l))%nat then nth (i - p) l d
  else if (i <? p + length l + p)%nat then a else d.
Proof.
  destruct (Nat.lt_ge_cases i p) as [H1 | H1].
  - rewrite app_nth1 by (rewrite repeat_length; exact H1).
    replace (p <=? i)%nat with false by (symmetry; apply Nat.leb_gt; exact H1).
    replace (i <? p + length l + p)%nat with true by (symmetry; apply Nat.ltb_lt; lia).
    apply nth_repeat_lt, H1.
  - rewrite app_nth2 by (rewrite repeat_length; exact H1). rewrite repeat_length.
    replace (p <=? i)%nat with true by (symmetry; apply Nat.leb_le; exact H1).
    destruct (Nat.lt_ge_cases i (p + length l)) as [H2 | H2].
    + replace (i <? p + length l)%nat with true by (symmetry; apply Nat.ltb_lt; exact H2).
      simpl. apply app_nth1. lia.
    + replace (i <? p + length l)%nat with false by (symmetry; apply Nat.ltb_ge; exact H2).
      simpl. rewrite app_nth2 by lia.
      destruct (Nat.lt_ge_cases i (p + length l + p)) as [H3 | H3].
      * replace (i <? p + length l + p)%nat with true by (symmetry; apply Nat.ltb_lt; exact H3).
        apply nth_repeat_lt. lia.
      * replace (i <? p + length l + p)%nat with false
          by (symmetry; apply Nat.ltb_ge; exact H3).
        apply nth_overflow. rewrite repeat_length. lia.
Qed.

Lemma pad_pixel {X} (p : nat) (z : X) (L W : nat) (m : image X) (i j : nat) :
  rect L W m -> (0 < L)%nat ->
  nth j (nth i (pad p z m) []) z =
  if ((p <=? i) && (i <? p + L) && (p <=? j) && (j <? p + W))%nat
  then nth (j - p) (nth (i - p) m []) z else z.
Proof.
  intros Hm HL. pose proof (rect_width _ _ _ Hm HL) as Hw.
  destruct Hm as [Hl Hr]. unfold pad. rewrite Hw.
  rewrite (nth_sandwich (repeat z (W + 2 * p)) [] p _ i), length_map, Hl.
  destruct ((p <=? i) && (i <? p + L))%nat eqn:E; simpl.
  - apply andb_true_iff in E. destruct E as [E1 E2].
    apply Nat.leb_le in E1. apply Nat.ltb_lt in E2.
    rewrite (nth_indep _ [] (repeat z p ++ [] ++ repeat z p))
      by (rewrite length_map; lia).
    rewrite (map_nth (fun row => repeat z p ++ row ++ repeat z p) m [] (i - p)).
    rewrite (nth_sandwich z z p _ j).
    assert (Hrow : length (nth (i - p) m []) = W).
    { apply (proj1 (Forall_forall _ _) Hr). apply nth_In. lia. }
    rewrite Hrow.
    destruct ((p <=? j) && (j <? p + W))%nat; [reflexivity|].
    destruct (j <? p + W + p)%nat; reflexivity.
  - destruct (i <? p + L + p)%nat.
    + apply nth_repeat_any.
    + destruct j; reflexivity.
Qed.

Lemma crop_pixel {X} (z : X) (m : image X) (r0 r1 c0 c1 a b : nat) :
  (r0 <= r1 <= length m)%nat -> (a < r1 - r0)%nat ->
  (c0 <= c1 <= length (nth (r0 + a) m []))%nat -> (b < c1 - c0)%nat ->
  nth b (nth a (crop m (Z.of_nat r0) (Z.of_nat r1) (Z.of_nat c0) (Z.of_nat c1)) []) z =
  nth (c0 + b) (nth (r0 + a) m []) z.
Proof.
  intros Hr Ha Hc Hb. unfold crop.
  rewrite (nth_indep _ [] (py_slice [] (Z.of_nat c0) (Z.of_nat c1)))
    by (rewrite length_map, length_py_slice_inside; lia).
  rewrite (map_nth (fun row => py_slice row (Z.of_nat c0) (Z.of_nat c1))).
  rewrite (py_slice_inside m) by lia.
  rewrite nth_firstn.
  replace (a <? r1 - r0)%nat with true by (symmetry; apply Nat.ltb_lt; exact Ha).
  rewrite nth_skipn.
  rewrite py_slice_inside by lia.
  rewrite nth_firstn.
  replace (b <? c1 - c0)%nat with true by (symmetry; apply Nat.ltb_lt; exact Hb).
  apply nth_skipn.
Qed.

(** X20. The shift moves the content by [h] rows and [v] columns and
    fills with zeros: for shifts between [-npix] and [npix], the pixel at
    row [a] and column [b] of the shifted image is the pixel of the
    original at row [a + h] and column [b + v] when that lies inside the
    image, and the zero pixel otherwise. *)
Theorem shifted_pixel {X} (z : X) (L W : nat) (h v : Z) (m : image X) (a b : nat) :
  rect L W m -> (0 < L)%nat ->
  (- Z.of_nat npix <= h <= Z.of_nat npix)%Z ->
  (- Z.of_nat npix <= v <= Z.of_nat npix)%Z ->
  (a < L)%nat -> (b < W)%nat ->
  nth b (nth a (shifted z L W h v m) []) z =
  if ((0 <=? Z.of_nat a + h) && (Z.of_nat a + h <? Z.of_nat L)
      && (0 <=? Z.of_nat b + v) && (Z.of_nat b + v <? Z.of_nat W))%Z
  then nth (Z.to_nat (Z.of_nat b + v)) (nth (Z.to_nat (Z.of_nat a + h)) m []) z
  else z.
Proof.
  intros Hm HL Hh Hv Ha Hb. rewrite shifted_nat by assumption.
  pose proof (rect_pad npix z L W m Hm HL) as [Pl Pr].
  set (r0 := Z.to_nat (Z.of_nat npix + h)). set (c0 := Z.to_nat (Z.of_nat npix + v)).
  assert (Hr0 : (r0 <= 2 * npix)%nat) by (unfold r0; lia).
  assert (Hc0 : (c0 <= 2 * npix)%nat) by (unfold c0; lia).
  assert (Hrow : length (nth (r0 + a) (pad npix z m) []) = (W + 2 * npix)%nat).
  { apply (proj1 (Forall_forall _ _) Pr). apply nth_In. lia. }
  rewrite (crop_pixel z (pad npix z m) r0 (L + r0) c0 (W + c0) a b) by lia.
  rewrite (pad_pixel npix z L W m (r0 + a) (c0 + b) Hm HL).
  destruct ((0 <=? Z.of_nat a + h) && (Z.of_nat a + h <? Z.of_nat L)
            && (0 <=? Z.of_nat b + v) && (Z.of_nat b + v <? Z.of_nat W))%Z eqn:E.
  - repeat (apply andb_true_iff in E; destruct E as [E ?]).
    apply Z.leb_le in E. apply Z.ltb_lt in H1. apply Z.leb_le in H0. apply Z.ltb_lt in H.
    replace ((npix <=? r0 + a) && (r0 + a <? npix + L)
             && (npix <=? c0 + b) && (c0 + b <? npix + W))%nat with true.
    + f_equal; [unfold c0; lia | f_equal; unfold r0; lia].
    + symmetry. repeat (apply andb_true_iff; split);
        first [apply Nat.leb_le | apply Nat.ltb_lt]; unfold r0, c0; lia.
  - replace ((npix <=? r0 + a) && (r0 + a <? npix + L)
             && (npix <=? c0 + b) && (c0 + b <? npix + W))%nat with false;
      [reflexivity|].
    symmetry. apply not_true_is_false. intro T. apply not_true_iff_false in E. apply E.
    repeat (apply andb_true_iff in T; destruct T as [T ?]).
    apply Nat.leb_le in T. apply Nat.ltb_lt in H1. apply Nat.leb_le in H0.
    apply Nat.ltb_lt in H.
    repeat (apply andb_true_iff; split);
      first [apply Z.leb_le | apply Z.ltb_lt]; unfold r0, c0 in *; lia.
Qed.

Lemma shifted_pixel_witness :
  nth 0 (nth 0 (shifted 0 2 2 0 1 ExG.tgt_b) []) 0 = 1 /\
  nth 1 (nth 0 (shifted 0 2 2 0 1 ExG.tgt_b) []) 0 = 0.
Proof.
  split.
  - apply (shifted_pixel 0 2 2 0 1 ExG.tgt_b 0 0); try (simpl; lia).
    repeat constructor.
  - apply (shifted_pixel 0 2 2 0 1 ExG.tgt_b 0 1); try (simpl; lia).
    repeat constructor.
Defined.
